(** * Family tree: import sanitizer and relation mutator of [src/app/tree.tsx]

    A shallow embedding of [normalizeImportedFamily], [reciprocal],
    [addRelationPair] and [saveQuickRelation], and the properties the
    design document states about them. *)

From Stdlib Require Import ZArith NArith String Ascii.
From stdpp Require Import base decidable option list gmap sets strings.

Open Scope string_scope.
Open Scope list_scope.
Set Warnings "-register-all,-clear-no-such-hyp".

(** ** Decoded JSON and the JavaScript builtins the screen relies on *)

(** The result of [JSON.parse].  An object is the list of its own properties
    (a name occurs once; [assoc] reads the first entry); a string is the
    sequence of the bytes of its UTF-8 encoding.  The payload of a number is
    only ever tested for truthiness. *)
Inductive JSON : Type :=
  | JNull
  | JBool (b : bool)
  | JNumber (n : Z)
  | JString (s : string)
  | JArray (items : list JSON)
  | JObject (fields : list (string * JSON)).

Inductive JsType : Type := TObject | TBoolean | TNumber | TString.

#[global] Instance JsType_eq_dec : EqDecision JsType.
Proof. solve_decision. Defined.

(** [typeof v]; note that [typeof null] and [typeof []] are both ['object']. *)
Definition typeof (v : JSON) : JsType :=
  match v with
  | JNull | JArray _ | JObject _ => TObject
  | JBool _ => TBoolean
  | JNumber _ => TNumber
  | JString _ => TString
  end.

(** ToBoolean, as used by [!v] and [v && ...]. *)
Definition truthy (v : JSON) : bool :=
  match v with
  | JNull => false
  | JBool b => b
  | JNumber n => negb (n =? 0)%Z
  | JString s => negb (String.eqb s "")
  | JArray _ | JObject _ => true
  end.

(** [Array.isArray v], where [v] may be [undefined]. *)
Definition isArray (v : option JSON) : bool :=
  match v with Some (JArray _) => true | _ => false end.

Fixpoint assoc (k : string) (fields : list (string * JSON)) : option JSON :=
  match fields with
  | [] => None
  | (k', v) :: rest => if String.eqb k' k then Some v else assoc k rest
  end.

(** [v.k] for the property names the screen reads ([id], [name], [dob],
    [email], [photo], [relations], [type], [targetId], [members]); [None] is
    [undefined].  None of these names is a property of an array. *)
Definition prop (v : JSON) (k : string) : option JSON :=
  match v with
  | JObject fields => assoc k fields
  | _ => None
  end.

(** [typeof x === 'string' ? x : undefined] on a property that may be absent. *)
Definition asString (v : option JSON) : option string :=
  match v with
  | Some (JString s) => Some s
  | _ => None
  end.

(** *** [String.prototype.trim] *)

Definition bytes (s : string) : list N := N_of_ascii <$> list_ascii_of_string s.
Definition unbytes (bs : list N) : string :=
  string_of_list_ascii (ascii_of_N <$> bs).

(** White space and line terminators of ECMAScript that take one, two and
    three bytes in UTF-8. *)
Definition ws1 (a : N) : bool := ((9 <=? a) && (a <=? 13) || (a =? 32))%N.
Definition ws2 (a b : N) : bool := ((a =? 194) && (b =? 160))%N.
Definition ws3 (a b c : N) : bool :=
  ((a =? 225) && (b =? 154) && (c =? 128)
   || (a =? 226) && (b =? 128)
      && ((128 <=? c) && (c <=? 138) || (c =? 168) || (c =? 169) || (c =? 175))
   || (a =? 226) && (b =? 129) && (c =? 159)
   || (a =? 227) && (b =? 128) && (c =? 128)
   || (a =? 239) && (b =? 187) && (c =? 191))%N.

(** Number of bytes of the white-space character a byte sequence starts
    with, [0] when it starts with none. *)
Definition wsPrefix (bs : list N) : nat :=
  match bs with
  | a :: t1 =>
      if ws1 a then 1
      else match t1 with
           | b :: t2 =>
               if ws2 a b then 2
               else match t2 with
                    | c :: _ => if ws3 a b c then 3 else 0
                    | [] => 0
                    end
           | [] => 0
           end
  | [] => 0
  end.

(** The same for a reversed byte sequence, i.e. for the end of a string. *)
Definition wsSuffix (rbs : list N) : nat :=
  match rbs with
  | c :: t1 =>
      if ws1 c then 1
      else match t1 with
           | b :: t2 =>
               if ws2 b c then 2
               else match t2 with
                    | a :: _ => if ws3 a b c then 3 else 0
                    | [] => 0
                    end
           | [] => 0
           end
  | [] => 0
  end.

Fixpoint strip (width : list N → nat) (fuel : nat) (bs : list N) : list N :=
  match fuel with
  | O => bs
  | S fuel' =>
      match width bs with
      | O => bs
      | k => strip width fuel' (drop k bs)
      end
  end.

Definition trim (s : string) : string :=
  let front := strip wsPrefix (length (bytes s)) (bytes s) in
  unbytes (reverse (strip wsSuffix (length front) (reverse front))).

(** [!s.trim()] *)
Definition blank (s : string) : bool := String.eqb (trim s) "".

(** ** Data model *)

Record Relation : Type := mkRelation { type : string; targetId : string }.

(** [Member] is declared outside the screen; these are the fields the screen
    reads and writes.  [relations] may be [undefined], which the screen
    treats as the empty list ([m.relations || []]). *)
Record Member : Type := mkMember {
  id : string;
  name : string;
  dob : option string;
  email : option string;
  photo : option string;
  relations : option (list Relation)
}.

#[global] Instance Relation_eq_dec : EqDecision Relation.
Proof. solve_decision. Defined.
#[global] Instance Member_eq_dec : EqDecision Member.
Proof. solve_decision. Defined.

(** [m.relations || []] *)
Definition rels (m : Member) : list Relation := default [] (relations m).

Definition setRelations (rs : list Relation) (m : Member) : Member :=
  {| id := id m; name := name m; dob := dob m; email := email m;
     photo := photo m; relations := Some rs |}.

(** ** Import sanitizer *)

Module Import Sanitizer.

(** One entry of [relationsRaw] after [.filter(r => r && typeof r === 'object')]
    and [.map(...)]: [None] when the first filter drops it. *)
Definition relationOfRaw (r : JSON) : option Relation :=
  if truthy r && bool_decide (typeof r = TObject) then
    Some {| type := default "other" (asString (prop r "type"));
            targetId := default "" (asString (prop r "targetId")) |}
  else None.

(** The [relations] of one item with id [i]. *)
Definition relationsOfRaw (i : string) (relationsRaw : option JSON)
    : list Relation :=
  match relationsRaw with
  | Some (JArray raw) =>
      filter (λ r, targetId r ≠ "" ∧ targetId r ≠ i) (omap relationOfRaw raw)
  | _ => []
  end.

(** State of the [for (const item of rawList)] loop. *)
Record Loop : Type := mkLoop { seen : gset string; sanitized : list Member }.

(** One iteration; every [continue] leaves the state as it is. *)
Definition visit (st : Loop) (item : JSON) : Loop :=
  if negb (truthy item) || negb (bool_decide (typeof item = TObject)) then st
  else
    match prop item "id", prop item "name" with
    | Some (JString i), Some (JString n) =>
        if blank i then st
        else if blank n then st
        else if bool_decide (i ∈ seen st) then st
        else
          {| seen := {[ i ]} ∪ seen st;
             sanitized := sanitized st ++
               [ {| id := i; name := trim n;
                    dob := asString (prop item "dob");
                    email := asString (prop item "email");
                    photo := asString (prop item "photo");
                    relations := Some (relationsOfRaw i (prop item "relations")) |} ] |}
    | _, _ => st
    end.

(** The loop run over [rawList], and the [sanitized] array it leaves. *)
Definition loop (rawList : list JSON) : Loop :=
  foldl visit {| seen := ∅; sanitized := [] |} rawList.

Definition sanitizeItems (rawList : list JSON) : list Member :=
  sanitized (loop rawList).

(** The second pass: drop relations that reference missing members. *)
Definition pruneDangling (ms : list Member) : list Member :=
  let idSet : gset string := list_to_set (id <$> ms) in
  (λ m, setRelations (filter (λ r, targetId r ∈ idSet) (rels m)) m) <$> ms.

(** [null] is [None]. *)
Definition normalizeImportedFamily (data : JSON) : option (list Member) :=
  let rawList : option JSON :=
    if isArray (Some data) then Some data
    else if truthy data && bool_decide (typeof data = TObject)
            && isArray (prop data "members")
         then prop data "members"
         else Some (JArray []) in
  match rawList with
  | Some (JArray items) =>
      let sanitized := sanitizeItems items in
      if bool_decide (length sanitized = 0) then Some []
      else Some (pruneDangling sanitized)
  | _ => None
  end.

End Sanitizer.

(** ** Relation mutator *)

Module Import Mutator.

Definition reciprocal (t : string) : string :=
  if bool_decide (t = "parent") then "child"
  else if bool_decide (t = "child") then "parent"
  else if bool_decide (t = "spouse") || bool_decide (t = "partner")
          || bool_decide (t = "sibling") then t
  else "other".

(** The relation types the modal can be opened with. *)
Inductive EditType : Type := Child | Spouse | Sibling.

Definition typeName (t : EditType) : string :=
  match t with Child => "child" | Spouse => "spouse" | Sibling => "sibling" end.

Record RelationModal : Type := mkModal {
  open : bool;
  sourceId : option string;
  modalType : option EditType
}.

(** The state of the relation modal when Save is pressed. *)
Record Form : Type := mkForm {
  relationModal : RelationModal;
  useNewTarget : bool;
  newTargetName : string;
  selectedTargetId : option string
}.

(** What the call reads from outside the screen: the stored user key and the
    id generated from the clock and the random source. *)
Record Env : Type := mkEnv { currentUser : option string; generatedId : string }.

Inductive Outcome : Type :=
  | Ignored
  | ToLogin
  | Alerted (title message : string)
  | Saved (userKey : string) (lst : list Member).

(** [list.find(m => m.id === i)]: the position of the object in the working
    array, and the object. *)
Definition findMember (i : string) (lst : list Member) : option (nat * Member) :=
  list_find (λ m, id m = i) lst.

(** [if (!rs.find(r => r.targetId === ... && r.type === ...)) rs.push(r)] *)
Definition pushUnlessFound (r : Relation) (rs : list Relation) : list Relation :=
  match list_find (λ r', targetId r' = targetId r ∧ type r' = type r) rs with
  | Some _ => rs
  | None => rs ++ [r]
  end.

(** The working array holds the member objects; [m1] and [m2] are positions
    in it, so that both name the same object when [id1 = id2]. *)
Definition addRelationPair (id1 id2 type1to2 : string) (lst : list Member)
    : list Member :=
  match findMember id1 lst, findMember id2 lst with
  | Some (m1, _), Some (m2, _) =>
      let lst := alter (λ m, setRelations (rels m) m) m1 lst in
      let lst := alter (λ m, setRelations (rels m) m) m2 lst in
      let lst :=
        alter (λ m, setRelations
                 (pushUnlessFound {| type := type1to2; targetId := id2 |} (rels m)) m)
              m1 lst in
      let type2to1 := reciprocal type1to2 in
      alter (λ m, setRelations
               (pushUnlessFound {| type := type2to1; targetId := id1 |} (rels m)) m)
            m2 lst
  | _, _ => lst
  end.

(** Joint parenting and spouse child-linking, the part of
    [saveQuickRelation] that follows the first [addRelationPair]. *)
Definition propagate (t : EditType) (sourceId finalTargetId : string)
    (lst : list Member) : list Member :=
  match t with
  | Child =>
      match findMember sourceId lst with
      | Some (_, sourceMember) =>
          match list_find (λ r, type r = "spouse" ∨ type r = "partner")
                          (rels sourceMember) with
          | Some (_, spouseRel) =>
              addRelationPair (targetId spouseRel) finalTargetId "child" lst
          | None => lst
          end
      | None => lst
      end
  | Spouse =>
      let childrenRels :=
        match findMember sourceId lst with
        | Some (_, sourceMember) =>
            filter (λ r, type r = "child") (rels sourceMember)
        | None => []
        end in
      foldl (λ lst c, addRelationPair finalTargetId (targetId c) "child" lst)
            lst childrenRels
  | Sibling => lst
  end.

(** The member objects of the [members] state as they are in the working
    array ([list] in the source), which starts as a copy of [members] and
    shares its objects. *)
Definition stateOf (members lst : list Member) : list Member :=
  take (length members) lst.

(** The result is what the call did and the [members] state after it. *)
Definition saveQuickRelation (env : Env) (form : Form) (members : list Member)
    : Outcome * list Member :=
  match open (relationModal form), sourceId (relationModal form),
        modalType (relationModal form) with
  | true, Some sourceId, Some t =>
      if bool_decide (sourceId = "") then (Ignored, members)
      else
        match currentUser env with
        | None => (ToLogin, members)
        | Some userKey =>
            if bool_decide (userKey = "") then (ToLogin, members)
            else
              let lst := members in
              let resolved : Outcome + option string * list Member :=
                if useNewTarget form then
                  if blank (newTargetName form) then
                    inl (Alerted "Name required"
                                 "Enter a name to create the new member.")
                  else
                    inr (Some (generatedId env),
                         lst ++ [ {| id := generatedId env;
                                      name := trim (newTargetName form);
                                      dob := None; email := None; photo := None;
                                      relations := Some [] |} ])
                else inr (selectedTargetId form, lst) in
              match resolved with
              | inl alert => (alert, stateOf members lst)
              | inr (finalTargetId, lst) =>
                  match finalTargetId with
                  | None =>
                      (Alerted "Select member"
                               "Pick an existing member or create a new one.",
                       stateOf members lst)
                  | Some finalTargetId =>
                      if bool_decide (finalTargetId = "") then
                        (Alerted "Select member"
                                 "Pick an existing member or create a new one.",
                         stateOf members lst)
                      else if bool_decide (finalTargetId = sourceId) then
                        (Alerted "Invalid" "Cannot relate to self.",
                         stateOf members lst)
                      else
                        let lst :=
                          addRelationPair sourceId finalTargetId (typeName t) lst in
                        let lst := propagate t sourceId finalTargetId lst in
                        (Saved userKey lst, lst)
                  end
              end
        end
  | _, _, _ => (Ignored, members)
  end.

(** The [members] state after one relation edit. *)
Definition edit (env : Env) (form : Form) (members : list Member) : list Member :=
  (saveQuickRelation env form members).2.

End Mutator.

(** ** Graph queries and the properties stated about the two components *)

(** The relations of the member that [list.find(m => m.id === i)] finds, and
    the empty sequence for an unknown id. *)
Definition relationsOf (i : string) (ms : list Member) : list Relation :=
  match findMember i ms with
  | Some (_, m) => rels m
  | None => []
  end.

Definition rel (t i : string) : Relation := {| type := t; targetId := i |}.

(** The position of that member. *)
Definition indexOf (i : string) (ms : list Member) : option nat :=
  fst <$> findMember i ms.

(** [r] pushed onto the relations of the object at position [k], unless it
    is there already. *)
Definition pushAt (k : nat) (r : Relation) (ms : list Member) : list Member :=
  alter (λ m, setRelations (pushUnlessFound r (rels m)) m) k ms.

(** The same on one relations list, under a condition. *)
Definition pushIf (c : bool) (r : Relation) (rs : list Relation) : list Relation :=
  if c then pushUnlessFound r rs else rs.

(** The member a relation edit creates. *)
Definition newMember (env : Env) (form : Form) : Member :=
  {| id := generatedId env; name := trim (newTargetName form);
     dob := None; email := None; photo := None; relations := Some [] |}.

(** A request that fails validation: the name of the new member is blank, no
    target is resolved, or the resolved target is the source. *)
Definition invalid (env : Env) (form : Form) : Prop :=
  if useNewTarget form then
    blank (newTargetName form) = true ∨ generatedId env = ""
    ∨ sourceId (relationModal form) = Some (generatedId env)
  else
    selectedTargetId form = None ∨ selectedTargetId form = Some ""
    ∨ selectedTargetId form = sourceId (relationModal form).

(** The target a request resolves to, before it is validated. *)
Definition finalTargetId (env : Env) (form : Form) : option string :=
  if useNewTarget form then Some (generatedId env) else selectedTargetId form.

(** The [forEach] of the spouse branch. *)
Definition linkChildren (tgt : string) (childrenRels : list Relation)
    (lst : list Member) : list Member :=
  foldl (λ lst c, addRelationPair tgt (targetId c) "child" lst) lst childrenRels.

(** One committed edit: the first [addRelationPair] and what follows it. *)
Definition commit (t : EditType) (s tgt : string) (lst : list Member)
    : list Member :=
  propagate t s tgt (addRelationPair s tgt (typeName t) lst).

(** Member [i] holds the relation [r]. *)
Definition holds (ms : list Member) (i : string) (r : Relation) : Prop :=
  r ∈ relationsOf i ms.

(** Both directions of the pair [a], [b] are in place, if both are members. *)
Definition linked (a b t : string) (lst : list Member) : Prop :=
  is_Some (indexOf a lst) → is_Some (indexOf b lst) →
  holds lst a (rel t b) ∧ holds lst b (rel (reciprocal t) a).

(** For every member A and relation (R, B) on A, B holds (reciprocal R, A). *)
Definition reciprocalGraph (ms : list Member) : Prop :=
  Forall (λ a, Forall (λ r, holds ms (targetId r) (rel (reciprocal (type r)) (id a)))
                      (rels a)) ms.

(** No member holds a relation that targets its own id. *)
Definition noSelfRelation (ms : list Member) : Prop :=
  Forall (λ m, Forall (λ r, targetId r ≠ id m) (rels m)) ms.

(** No relation of the graph targets the id [i]. *)
Definition unreferenced (i : string) (ms : list Member) : Prop :=
  Forall (λ m, Forall (λ r, targetId r ≠ i) (rels m)) ms.

(** No relations list holds the same (type, targetId) pair twice. *)
Definition noDuplicateRelation (ms : list Member) : Prop :=
  Forall (λ m, NoDup (rels m)) ms.

(** Every relation targets the id of a member. *)
Definition noDangling (ms : list Member) : Prop :=
  Forall (λ m, Forall (λ r, targetId r ∈ id <$> ms) (rels m)) ms.

(** An item the per-item pass can keep: an object whose [id] and [name] are
    strings that are not empty once trimmed. *)
Definition keepable (item : JSON) (i n : string) : Prop :=
  (∃ fields, item = JObject fields)
  ∧ prop item "id" = Some (JString i) ∧ trim i ≠ ""
  ∧ prop item "name" = Some (JString n) ∧ trim n ≠ "".

(** The same with "not empty" taken literally. *)
Definition nonEmptyFields (item : JSON) (i n : string) : Prop :=
  (∃ fields, item = JObject fields)
  ∧ prop item "id" = Some (JString i) ∧ i ≠ ""
  ∧ prop item "name" = Some (JString n) ∧ n ≠ "".

(** The relation a raw entry [e] of the item with id [i] stands for. *)
Definition entryGives (i : string) (e : JSON) (r : Relation) : Prop :=
  (∃ fields, e = JObject fields)
  ∧ prop e "targetId" = Some (JString (targetId r))
  ∧ targetId r ≠ "" ∧ targetId r ≠ i
  ∧ type r = match prop e "type" with
             | Some (JString t) => t
             | _ => "other"
             end.

Definition rawEntries (item : JSON) : list JSON :=
  match prop item "relations" with
  | Some (JArray es) => es
  | _ => []
  end.

Definition person (i n : string) (rs : list Relation) : Member :=
  {| id := i; name := n; dob := None; email := None; photo := None;
     relations := Some rs |}.

(** The modal opened on [s] for type [t], filled in for a new member named
    [n], and for the existing member [i]. *)
Definition addNew (s : string) (t : EditType) (n : string) : Form :=
  {| relationModal := {| open := true; sourceId := Some s; modalType := Some t |};
     useNewTarget := true; newTargetName := n; selectedTargetId := None |}.

Definition addExisting (s : string) (t : EditType) (i : string) : Form :=
  {| relationModal := {| open := true; sourceId := Some s; modalType := Some t |};
     useNewTarget := false; newTargetName := ""; selectedTargetId := Some i |}.

Definition session (i : string) : Env :=
  {| currentUser := Some "user"; generatedId := i |}.

Definition exportWithDangling : JSON :=
  JObject [("members",
    JArray [JObject [("id", JString "a"); ("name", JString "A");
                     ("relations",
                       JArray [JObject [("type", JString "child");
                                        ("targetId", JString "missing")]])]])].

(** An item whose [id] is a single space. *)
Definition blankIdItem : JSON :=
  JObject [("id", JString " "); ("name", JString "A")].

Definition itemA : JSON :=
  JObject [("id", JString "a"); ("name", JString " Ann ");
           ("relations", JArray [JObject [("targetId", JString "b")]])].

Definition itemB : JSON :=
  JObject [("id", JString "b"); ("name", JString "Bob")].

(** Sample graphs: a single member, and a married couple. *)
Definition single : list Member := [person "1" "Me" []].

Definition couple : list Member :=
  [person "1" "Me" [rel "spouse" "2"]; person "2" "Sam" [rel "spouse" "1"]].

(** A member with a spouse and, later in the list, a partner. *)
Definition twoPartners : list Member :=
  [person "1" "Me" [rel "spouse" "2"; rel "partner" "3"];
   person "2" "Sam" [rel "spouse" "1"];
   person "3" "Alex" [rel "partner" "1"]].

(** A member whose spouse and partner are the same person. *)
Definition spouseAndPartner : list Member :=
  [person "1" "Me" [rel "spouse" "2"; rel "partner" "2"];
   person "2" "Sam" [rel "spouse" "1"; rel "partner" "1"]].

(** A household in which the partner already is a parent of member 4. *)
Definition stepFamily : list Member :=
  [person "1" "Me" [rel "spouse" "2"; rel "partner" "3"];
   person "2" "Sam" [rel "spouse" "1"];
   person "3" "Alex" [rel "partner" "1"; rel "child" "4"];
   person "4" "Kim" [rel "parent" "3"]].

(** A no-break space (U+00A0) followed by a tab. *)
Definition nbspTab : string :=
  String (ascii_of_nat 194) (String (ascii_of_nat 160) (String (ascii_of_nat 9) "")).

(** A parent of two. *)
Definition parentOfTwo : list Member :=
  [person "1" "Me" [rel "child" "2"; rel "child" "3"];
   person "2" "Kim" [rel "parent" "1"];
   person "3" "Lee" [rel "parent" "1"]].

(** ** The import sanitizer *)

(** ** The rest of the screen *)

(** The state the relation modal and [saveQuickRelation] work on. *)
Record Screen : Type := mkScreen { members : list Member; modalForm : Form }.

(** [openRelationModal(sourceId, type)]: the four setters it calls. *)
Definition openRelationModal (s : string) (t : EditType) : Form :=
  {| relationModal := {| open := true; sourceId := Some s; modalType := Some t |};
     useNewTarget := true; newTargetName := ""; selectedTargetId := None |}.

Definition closeRelationModal : Form :=
  {| relationModal := {| open := false; sourceId := None; modalType := None |};
     useNewTarget := true; newTargetName := ""; selectedTargetId := None |}.

(** The "Existing" toggle and a press on a row of the member list. *)
Definition chooseExisting (form : Form) : Form :=
  {| relationModal := relationModal form; useNewTarget := false;
     newTargetName := newTargetName form;
     selectedTargetId := selectedTargetId form |}.

Definition setTargetId (i : string) (form : Form) : Form :=
  {| relationModal := relationModal form; useNewTarget := useNewTarget form;
     newTargetName := newTargetName form; selectedTargetId := Some i |}.

(** The rows of the member list: [members.filter(m => m.id !==
    relationModal.sourceId)]. *)
Definition selectable (form : Form) (ms : list Member) : list Member :=
  filter (λ m, Some (id m) ≠ sourceId (relationModal form)) ms.

(** A press on Save, run to its end: [saveQuickRelation] with the
    [setMembers] and [closeRelationModal] that follow a save. *)
Definition pressSave (env : Env) (scr : Screen) : Outcome * Screen :=
  let r := saveQuickRelation env (modalForm scr) (members scr) in
  match r.1 with
  | Saved _ _ => (r.1, {| members := r.2; modalForm := closeRelationModal |})
  | _ => (r.1, {| members := r.2; modalForm := modalForm scr |})
  end.

(** The user record stored under the user key, as the login and profile
    screens write it: four string fields, each possibly absent. *)
Record StoredUser : Type := mkStoredUser {
  userName : option string;
  userDob : option string;
  userEmail : option string;
  userPhoto : option string
}.

(** [if (user?.f) x = user.f]: a field that is present and not empty. *)
Definition truthyField (user : option StoredUser)
    (f : StoredUser → option string) : option string :=
  match user with
  | Some u =>
      match f u with
      | Some v => if bool_decide (v = "") then None else Some v
      | None => None
      end
  | None => None
  end.

(** [user] is [None] when nothing is stored, when the stored text does not
    parse (the [catch] ignores it) and when it is [null]. *)
Definition ensureDefaultMember (env : Env) (user : option StoredUser)
    (lst : list Member) : list Member :=
  if bool_decide (0 < length lst) then lst
  else
    [ {| id := generatedId env;
         name := default "Me" (truthyField user userName);
         dob := truthyField user userDob;
         email := truthyField user userEmail;
         photo := truthyField user userPhoto;
         relations := Some [] |} ].

Inductive ImportResult : Type :=
  | ImportToLogin
  | InvalidJSON
  | InvalidFormat
  | Imported (userKey : string) (saved : list Member).

(** [importFromJsonText]; [parsed] is what [JSON.parse(text)] returns, [None]
    when it throws.  The result is the answer and the [members] state. *)
Definition importFromJsonText (env : Env) (user : option StoredUser)
    (parsed : option JSON) (members : list Member) : ImportResult * list Member :=
  match currentUser env with
  | None => (ImportToLogin, members)
  | Some userKey =>
      if bool_decide (userKey = "") then (ImportToLogin, members)
      else
        match parsed with
        | None => (InvalidJSON, members)
        | Some parsed =>
            match normalizeImportedFamily parsed with
            | None => (InvalidFormat, members)
            | Some next =>
                let ensured := ensureDefaultMember env user next in
                (Imported userKey ensured, ensured)
            end
        end
  end.

(** What [JSON.parse] reads back from [JSON.stringify(members)], the export
    text: a property that is [undefined] is left out.  Properties of a member
    other than the six of the record are not modelled; the sanitizer does not
    read them. *)
Definition relationToJSON (r : Relation) : JSON :=
  JObject [("type", JString (type r)); ("targetId", JString (targetId r))].

Definition optionalField (k : string) (v : option string) : list (string * JSON) :=
  match v with
  | Some s => [(k, JString s)]
  | None => []
  end.

Definition memberToJSON (m : Member) : JSON :=
  JObject ([("id", JString (id m)); ("name", JString (name m))]
           ++ optionalField "dob" (dob m)
           ++ optionalField "email" (email m)
           ++ optionalField "photo" (photo m)
           ++ match relations m with
              | Some rs => [("relations", JArray (relationToJSON <$> rs))]
              | None => []
              end).

Definition exportValue (ms : list Member) : JSON := JArray (memberToJSON <$> ms).

(** [{...m, relations: m.relations || []}] *)
Definition withRelations (m : Member) : Member := setRelations (rels m) m.

(** A graph the export keeps whole: distinct ids, ids and names that are not
    blank, names without surrounding white space, and relations that target
    another member under a non-empty id. *)
Definition exportable (ms : list Member) : Prop :=
  NoDup (id <$> ms)
  ∧ Forall (λ m, blank (id m) = false ∧ blank (name m) = false
                 ∧ trim (name m) = name m
                 ∧ Forall (λ r, targetId r ≠ "" ∧ targetId r ≠ id m
                                ∧ targetId r ∈ id <$> ms) (rels m)) ms.

(** What the sanitizer guarantees of each member it returns. *)
Definition sound (m : Member) : Prop :=
  blank (id m) = false ∧ name m ≠ "" ∧ is_Some (relations m)
  ∧ Forall (λ r, targetId r ≠ "" ∧ targetId r ≠ id m) (rels m).

(** [m'] is [m] with relations pushed at the end of its list. *)
Definition grown (m m' : Member) : Prop :=
  id m' = id m ∧ name m' = name m ∧ dob m' = dob m ∧ email m' = email m
  ∧ photo m' = photo m ∧ rels m `prefix_of` rels m'.

(** *** The colour of a node *)

(** The UTF-16 code units of a string given by the bytes of its UTF-8
    encoding, which is what [id.split('')] and [charCodeAt(0)] go through. *)
Fixpoint codeUnits (bs : list N) : list N :=
  match bs with
  | [] => []
  | a :: t1 =>
      if (a <? 192)%N then a :: codeUnits t1
      else
        match t1 with
        | [] => [a]
        | b :: t2 =>
            if (a <? 224)%N then ((a - 192) * 64 + (b - 128))%N :: codeUnits t2
            else
              match t2 with
              | [] => [a; b]
              | c :: t3 =>
                  if (a <? 240)%N then
                    ((a - 224) * 4096 + (b - 128) * 64 + (c - 128))%N
                      :: codeUnits t3
                  else
                    match t3 with
                    | [] => [a; b; c]
                    | d :: t4 =>
                        let cp := ((a - 240) * 262144 + (b - 128) * 4096
                                   + (c - 128) * 64 + (d - 128))%N in
                        (55296 + (cp - 65536) / 1024)%N
                          :: (56320 + (cp - 65536) mod 1024)%N
                          :: codeUnits t4
                    end
              end
        end
  end.

Definition colors : list string :=
  ["#FF2D55"; "#FF9500"; "#FFCC00"; "#34C759";
   "#5AC8FA"; "#0A84FF"; "#5856D6"; "#AF52DE"].

(** [id.split('').reduce((s, c) => s + c.charCodeAt(0), 0)] *)
Definition hash (i : string) : N :=
  foldl (λ s c, (s + c)%N) 0%N (codeUnits (bytes i)).

(** [colors[hash % colors.length]]; [None] is [undefined]. *)
Definition nodeColor (i : string) : option string :=
  colors !! N.to_nat (hash i mod N.of_nat (length colors)).

(** Sample data for the rest of the screen. *)
Definition ann : StoredUser :=
  {| userName := Some "Ann"; userDob := None; userEmail := Some "";
     userPhoto := None |}.

Definition trio : list Member :=
  [person "1" "Me" [rel "spouse" "2"; rel "child" "3"];
   person "2" "Sam" [rel "spouse" "1"; rel "child" "3"];
   person "3" "Kid" [rel "parent" "1"; rel "parent" "2"]].

Example trim_examples :
  trim "  Ann Lee " = "Ann Lee" ∧ trim " " = "" ∧ trim "" = ""
  ∧ trim nbspTab = "" ∧ trim (nbspTab +:+ "x y" +:+ nbspTab) = "x y".
Proof. by vm_compute. Qed.

Section sanitizer.

Implicit Types (items : list JSON) (item : JSON) (st : Loop) (m : Member).

Lemma loop_snoc items item : loop (items ++ [item]) = visit (loop items) item.
Proof. unfold loop. by rewrite foldl_app. Qed.

(** The [seen] set is the set of ids of the members kept so far. *)
Lemma seen_visit st item :
  (∀ i, i ∈ seen st ↔ i ∈ id <$> sanitized st) →
  ∀ i, i ∈ seen (visit st item) ↔ i ∈ id <$> sanitized (visit st item).
Proof.
  intros Hst i. unfold visit.
  repeat (case_match; try done).
  cbn [seen sanitized]. rewrite fmap_app, elem_of_app, elem_of_union, Hst.
  cbn. rewrite elem_of_singleton, list_elem_of_singleton. tauto.
Qed.

Lemma seen_loop items i : i ∈ seen (loop items) ↔ i ∈ id <$> sanitized (loop items).
Proof.
  revert i. induction items as [|item items IH] using rev_ind.
  - intros i. cbn. set_solver.
  - rewrite loop_snoc. by apply seen_visit.
Qed.

Lemma relationOfRaw_Some e r :
  relationOfRaw e = Some r ↔
  (∃ items, e = JArray items ∧ r = rel "other" "")
  ∨ (∃ fields, e = JObject fields
       ∧ type r = default "other" (asString (prop e "type"))
       ∧ targetId r = default "" (asString (prop e "targetId"))).
Proof.
  unfold relationOfRaw.
  destruct e; cbn; try case_bool_decide; try done; rewrite ?andb_false_r;
    try (split; [done | naive_solver]).
  - split; [intros [= <-]; left; eauto | naive_solver].
  - split.
    + intros [= <-]. right. eauto.
    + intros [(? & [=] & _) | (? & _ & Ht & Hi)]. destruct r; cbn in *. by subst.
Qed.

(** What [relationsOfRaw] keeps of the raw entries of an item. *)
Lemma elem_of_relationsOfRaw i item r :
  r ∈ relationsOfRaw i (prop item "relations") ↔
  ∃ e, e ∈ rawEntries item ∧ entryGives i e r.
Proof.
  unfold relationsOfRaw, rawEntries.
  destruct (prop item "relations") as [[]|];
    try (split; [by intros ?%elem_of_nil | by intros (? & ?%elem_of_nil & _)]).
  rewrite list_elem_of_filter, list_elem_of_omap.
  split.
  - intros [[Hne Hself] (e & He & Hr)]. exists e. split; [done|].
    apply relationOfRaw_Some in Hr as [(? & -> & ->) | (fields & -> & Ht & Hi)];
      [done|].
    unfold entryGives. split; [eauto|]. cbn in *.
    destruct (assoc "targetId" fields) as [[]|]; cbn in Hi; try congruence.
    split; [by rewrite Hi|]. split_and!; [done..|].
    rewrite Ht. by destruct (assoc "type" fields) as [[]|].
  - intros (e & He & (fields & ->) & Hi & Hne & Hself & Ht).
    split; [done|]. exists (JObject fields). split; [done|].
    apply relationOfRaw_Some. right. exists fields. split; [done|].
    rewrite Hi, Ht. cbn. split; [|done].
    by destruct (assoc "type" fields) as [[]|].
Qed.

(** An iteration either keeps the item, appending one member, or leaves the
    state as it is. *)
Lemma visit_keep st item i n :
  keepable item i n → i ∉ seen st →
  sanitized (visit st item) = sanitized st ++
    [ {| id := i; name := trim n;
         dob := asString (prop item "dob");
         email := asString (prop item "email");
         photo := asString (prop item "photo");
         relations := Some (relationsOfRaw i (prop item "relations")) |} ].
Proof.
  intros ((fields & ->) & Hi & Hti & Hn & Htn) Hseen. unfold visit.
  cbn [truthy typeof negb orb]. rewrite bool_decide_eq_true_2 by done.
  cbn [negb]. rewrite Hi, Hn. unfold blank.
  rewrite (proj2 (String.eqb_neq _ _) Hti), (proj2 (String.eqb_neq _ _) Htn).
  by rewrite bool_decide_eq_false_2.
Qed.

Lemma visit_drop st item :
  (∀ i n, keepable item i n → i ∈ seen st) → visit st item = st.
Proof.
  intros Hdrop. unfold visit.
  destruct (negb (truthy item) || negb (bool_decide (typeof item = TObject)))
    eqn:Hobj; [done|].
  destruct (prop item "id") as [[| | |i| |]|] eqn:Hi; try done.
  destruct (prop item "name") as [[| | |n| |]|] eqn:Hn; try done.
  unfold blank.
  destruct (String.eqb_spec (trim i) ""); [done|].
  destruct (String.eqb_spec (trim n) ""); [done|].
  rewrite bool_decide_eq_true_2; [done|].
  apply (Hdrop i n). split_and!; try done.
  destruct item; try discriminate; eauto.
Qed.

End sanitizer.

(** The sanitizer accepts every decoded value: the guard that returns [null]
    only sees [rawList] after it has been replaced by an array. *)
Lemma normalizeImportedFamily_accepts data :
  ∃ ms, normalizeImportedFamily data = Some ms.
Proof.
  unfold normalizeImportedFamily.
  set (rawList := if isArray (Some data) then _ else _).
  assert (∃ items, rawList = Some (JArray items)) as [items ->].
  { subst rawList. destruct (isArray (Some data)) eqn:Hd.
    - destruct data; try discriminate; eauto.
    - destruct (_ && isArray (prop data "members")) eqn:Hm; [|eauto].
      apply andb_prop in Hm as [_ Hm].
      destruct (prop data "members") as [[]|]; try discriminate; eauto. }
  case_bool_decide; eauto.
Qed.

(** Whatever is neither an array nor an object with a [members] array is
    turned into the empty list. *)
Lemma normalizeImportedFamily_other_shape data :
  isArray (Some data) = false → isArray (prop data "members") = false →
  normalizeImportedFamily data = Some [].
Proof.
  intros Hd Hm. unfold normalizeImportedFamily.
  by rewrite Hd, Hm, andb_false_r.
Qed.

Lemma pruneDangling_noDangling ms : noDangling (pruneDangling ms).
Proof.
  unfold noDangling, pruneDangling.
  rewrite <- list_fmap_compose.
  apply Forall_fmap, Forall_forall. intros m Hm. cbn.
  apply Forall_forall. intros r [Hr _]%list_elem_of_filter.
  by apply elem_of_list_to_set in Hr.
Qed.

(** C3.  A decoded plain number is not rejected: the sanitizer answers it
    with the empty member list, the very result it gives when no member
    survives, and not with the reject sentinel [null] ([None]) that the
    caller tests for. *)
Theorem C3_plain_number_yields_empty_list :
  normalizeImportedFamily (JNumber 42) = Some []
  ∧ normalizeImportedFamily (JArray []) = Some [].
Proof. split; reflexivity. Qed.

(** C7.  Whenever the sanitizer accepts its input, every relation of every
    returned member targets the id of a member of the returned list. *)
Theorem C7_no_dangling_reference data ms :
  normalizeImportedFamily data = Some ms →
  ∀ m r, m ∈ ms → r ∈ rels m → ∃ m', m' ∈ ms ∧ id m' = targetId r.
Proof.
  intros Hms.
  assert (noDangling ms) as Hnd.
  { unfold normalizeImportedFamily in Hms.
    repeat case_match; simplify_eq;
      first [ apply pruneDangling_noDangling | by constructor ]. }
  intros m r Hm Hr. unfold noDangling in Hnd.
  rewrite Forall_forall in Hnd. specialize (Hnd m Hm).
  rewrite Forall_forall in Hnd. specialize (Hnd r Hr).
  apply list_elem_of_fmap in Hnd as (m' & -> & Hm'). eauto.
Qed.

Lemma C7_no_dangling_reference_witness :
  normalizeImportedFamily exportWithDangling = Some [person "a" "A" []]
  ∧ ∀ m r, m ∈ [person "a" "A" []] → r ∈ rels m →
      ∃ m', m' ∈ [person "a" "A" []] ∧ id m' = targetId r.
Proof.
  split; [reflexivity|].
  apply (C7_no_dangling_reference exportWithDangling). reflexivity.
Defined.

(** C8, as stated, fails: an item whose [id] is the one-character string
    [" "] is an object with a non-empty string id and a non-empty string
    name and no earlier item was kept, yet the per-item pass drops it. *)
Lemma C8_blank_id_dropped :
  nonEmptyFields blankIdItem " " "A"
  ∧ (" " ∉ id <$> sanitizeItems [])
  ∧ sanitizeItems ([] ++ [blankIdItem]) = sanitizeItems [].
Proof.
  split_and!.
  - unfold nonEmptyFields, blankIdItem. split_and!; eauto.
  - cbn. apply not_elem_of_nil.
  - reflexivity.
Qed.

(** C8 (amended).  The per-item pass keeps an item exactly when it is an
    object whose [id] and [name] are strings that are non-empty after
    trimming white space and whose id is not the id of an earlier kept item.
    A kept item is appended after the members kept before it, with the
    trimmed name, and its relations are those of its raw entries that are
    objects with a non-empty string [targetId] other than its own id, of type
    ["other"] where the entry's [type] is not a string.  A dropped item
    leaves the result as it was. *)
Theorem C8_per_item_pass items item :
  (∀ i n, keepable item i n → i ∉ (id <$> sanitizeItems items) →
     ∃ m, sanitizeItems (items ++ [item]) = sanitizeItems items ++ [m]
          ∧ id m = i ∧ name m = trim n
          ∧ ∀ r, r ∈ rels m ↔ ∃ e, e ∈ rawEntries item ∧ entryGives i e r)
  ∧ ((∀ i n, keepable item i n → i ∈ (id <$> sanitizeItems items)) →
     sanitizeItems (items ++ [item]) = sanitizeItems items).
Proof.
  unfold sanitizeItems. rewrite loop_snoc. split.
  - intros i n Hkeep Hnew. rewrite <- seen_loop in Hnew.
    eexists. split; [by apply visit_keep|]. cbn.
    split_and!; [done..|]. intros r. apply elem_of_relationsOfRaw.
  - intros Hdrop. rewrite visit_drop; [done|].
    intros i n Hkeep. apply seen_loop. eauto.
Qed.

Lemma C8_per_item_pass_witness :
  (∃ m, sanitizeItems ([itemA] ++ [itemB]) = sanitizeItems [itemA] ++ [m]
        ∧ id m = "b" ∧ name m = trim "Bob"
        ∧ ∀ r, r ∈ rels m ↔ ∃ e, e ∈ rawEntries itemB ∧ entryGives "b" e r)
  ∧ sanitizeItems ([itemA] ++ [JNumber 7]) = sanitizeItems [itemA].
Proof.
  split.
  - apply (proj1 (C8_per_item_pass [itemA] itemB)).
    + unfold keepable, itemB. split_and!; eauto; by vm_compute.
    + vm_compute. by intros [=]%list_elem_of_singleton.
  - apply (proj2 (C8_per_item_pass [itemA] (JNumber 7))).
    by intros i n ([fields [=]] & _).
Defined.

(** ** The relation mutator *)

Section mutator.

Implicit Types (ms lst : list Member) (m : Member).
Implicit Types (r : Relation) (rs : list Relation) (a b t : string).

Lemma reciprocal_typeName (e : EditType) :
  reciprocal (reciprocal (typeName e)) = typeName e.
Proof. by destruct e. Qed.

Lemma reciprocal_table :
  reciprocal "parent" = "child" ∧ reciprocal "child" = "parent"
  ∧ reciprocal "spouse" = "spouse" ∧ reciprocal "partner" = "partner"
  ∧ reciprocal "sibling" = "sibling"
  ∧ ∀ t, t ∉ ["parent"; "child"; "spouse"; "partner"; "sibling"] →
         reciprocal t = "other".
Proof.
  split_and!; try done. intros t Ht. unfold reciprocal.
  repeat (case_bool_decide; [subst; exfalso; apply Ht; set_solver|]).
  done.
Qed.

Lemma rels_setRelations rs m : rels (setRelations rs m) = rs.
Proof. done. Qed.

Lemma setRelations_rels m rs : relations m = Some rs → setRelations rs m = m.
Proof. destruct m; cbn. by intros ->. Qed.

(** *** Pushing one relation *)

Lemma pushUnlessFound_decide r rs :
  pushUnlessFound r rs = if decide (r ∈ rs) then rs else rs ++ [r].
Proof.
  unfold pushUnlessFound. destruct (list_find _ rs) as [[k r']|] eqn:Hf.
  - apply list_find_Some in Hf as (Hk & [Hi Ht] & _).
    assert (r' = r) as -> by (destruct r, r'; cbn in *; congruence).
    rewrite decide_True; [done|]. by eapply list_elem_of_lookup_2.
  - apply list_find_None in Hf. rewrite decide_False; [done|].
    intros Hin. rewrite Forall_forall in Hf. by apply (Hf r Hin).
Qed.

Lemma elem_of_pushUnlessFound r r' rs :
  r' ∈ pushUnlessFound r rs ↔ r' ∈ rs ∨ r' = r.
Proof.
  rewrite pushUnlessFound_decide. case_decide.
  - split; [auto|]. by intros [?| ->].
  - by rewrite elem_of_app, list_elem_of_singleton.
Qed.

Lemma pushUnlessFound_present r rs : r ∈ rs → pushUnlessFound r rs = rs.
Proof. intros. rewrite pushUnlessFound_decide. by rewrite decide_True. Qed.

Lemma pushUnlessFound_NoDup r rs : NoDup rs → NoDup (pushUnlessFound r rs).
Proof.
  intros Hnd. rewrite pushUnlessFound_decide. case_decide; [done|].
  apply NoDup_app. split_and!; [done| |apply NoDup_singleton].
  by intros r' Hr' ->%list_elem_of_singleton.
Qed.

Lemma filter_pushUnlessFound (P : Relation → Prop) `{!∀ r, Decision (P r)} r rs :
  ¬ P r → filter P (pushUnlessFound r rs) = filter P rs.
Proof.
  intros HP. rewrite pushUnlessFound_decide. case_decide; [done|].
  rewrite filter_app, filter_cons_False, filter_nil by done.
  by rewrite app_nil_r.
Qed.

Lemma list_find_pushUnlessFound (P : Relation → Prop) `{!∀ r, Decision (P r)} r rs :
  ¬ P r → list_find P (pushUnlessFound r rs) = list_find P rs.
Proof.
  intros HP. rewrite pushUnlessFound_decide. case_decide; [done|].
  destruct (list_find P rs) as [[k r']|] eqn:Hf.
  - by apply list_find_app_l.
  - rewrite list_find_app_r by done. cbn. by rewrite decide_False.
Qed.

(** *** Positions and ids *)

Lemma indexOf_ids a lst :
  indexOf a lst = fst <$> list_find (λ i, i = a) (id <$> lst).
Proof.
  unfold indexOf, findMember. rewrite list_find_fmap.
  by destruct (list_find _ lst) as [[]|].
Qed.

Lemma indexOf_same_ids a lst lst' :
  id <$> lst = id <$> lst' → indexOf a lst = indexOf a lst'.
Proof. intros Hids. by rewrite !indexOf_ids, Hids. Qed.

Lemma findMember_Some a lst k m :
  findMember a lst = Some (k, m) ↔ indexOf a lst = Some k ∧ lst !! k = Some m.
Proof.
  unfold indexOf. split.
  - intros Hf. rewrite Hf. split; [done|].
    by apply list_find_Some in Hf as (? & _).
  - intros [Hk Hm]. destruct (findMember a lst) as [[k' m']|] eqn:Hf; [|done].
    cbn in Hk. simplify_eq.
    apply list_find_Some in Hf as (? & _). by simplify_eq.
Qed.

Lemma findMember_None a lst : findMember a lst = None ↔ indexOf a lst = None.
Proof. unfold indexOf. by destruct (findMember a lst). Qed.

Lemma indexOf_Some a lst k :
  indexOf a lst = Some k → ∃ m, lst !! k = Some m ∧ id m = a.
Proof.
  unfold indexOf. destruct (findMember a lst) as [[k' m]|] eqn:Hf; [|done].
  intros [= <-]. apply list_find_Some in Hf as (? & ? & _). eauto.
Qed.

Lemma indexOf_app_l a lst m k :
  indexOf a lst = Some k → indexOf a (lst ++ [m]) = Some k.
Proof.
  unfold indexOf. destruct (findMember a lst) as [[k' m']|] eqn:Hf; [|done].
  intros [= <-]. unfold findMember in *.
  by erewrite list_find_app_l.
Qed.

Lemma indexOf_is_Some a lst : is_Some (indexOf a lst) ↔ a ∈ id <$> lst.
Proof.
  rewrite indexOf_ids. split.
  - intros [k Hk]. destruct (list_find _ _) as [[k' i]|] eqn:Hf; [|done].
    apply list_find_Some in Hf as (Hi & -> & _).
    by eapply list_elem_of_lookup_2.
  - intros Hin. destruct (list_find_elem_of (λ i, i = a) _ a Hin eq_refl)
      as [[k i] ->]. by eexists.
Qed.

Lemma relationsOf_index a lst k m :
  indexOf a lst = Some k → lst !! k = Some m → relationsOf a lst = rels m.
Proof.
  intros Hk Hm. unfold relationsOf.
  by rewrite (proj2 (findMember_Some a lst k m)).
Qed.

Lemma relationsOf_unknown a lst : indexOf a lst = None → relationsOf a lst = [].
Proof. intros Hk%findMember_None. unfold relationsOf. by rewrite Hk. Qed.

(** *** [pushAt] *)

Lemma pushAt_lookup k j r lst :
  pushAt k r lst !! j =
  (λ m, if decide (j = k) then setRelations (pushUnlessFound r (rels m)) m else m)
    <$> lst !! j.
Proof.
  unfold pushAt. rewrite list_lookup_alter.
  destruct (decide (k = j)) as [->|Hne]; destruct (lst !! j); cbn; try done.
  - by rewrite decide_True.
  - by rewrite decide_False.
Qed.

Lemma ids_pushAt k r lst : id <$> pushAt k r lst = id <$> lst.
Proof.
  unfold pushAt. rewrite (list_fmap_alter _ _ (λ i, i)).
  - by apply list_alter_id.
  - by apply Forall_true.
Qed.

Lemma pushAt_present k r lst m :
  lst !! k = Some m → r ∈ rels m → pushAt k r lst = lst.
Proof.
  intros Hm Hr. unfold pushAt.
  rewrite <- (list_alter_id (λ m, m) lst k) at 2 by done.
  apply list_alter_ext; [|done]. intros m' ?. simplify_eq.
  rewrite pushUnlessFound_present by done.
  apply setRelations_rels. unfold rels in *.
  destruct (relations m); [done|]. by apply elem_of_nil in Hr.
Qed.

Lemma pushAt_out_of_range k r lst : lst !! k = None → pushAt k r lst = lst.
Proof.
  intros Hk. unfold pushAt.
  rewrite <- (list_alter_id (λ m, m) lst k) at 2 by done.
  apply list_alter_ext; [|done]. intros m' ?. congruence.
Qed.

(** The four updates of [addRelationPair] amount to two pushes. *)
Lemma addRelationPair_found a b t lst k1 k2 :
  indexOf a lst = Some k1 → indexOf b lst = Some k2 →
  addRelationPair a b t lst =
  pushAt k2 (rel (reciprocal t) a) (pushAt k1 (rel t b) lst).
Proof.
  intros Hk1 Hk2.
  destruct (indexOf_Some _ _ _ Hk1) as (m1 & Hm1 & _).
  destruct (indexOf_Some _ _ _ Hk2) as (m2 & Hm2 & _).
  unfold addRelationPair.
  rewrite (proj2 (findMember_Some a lst k1 m1)) by done.
  rewrite (proj2 (findMember_Some b lst k2 m2)) by done.
  unfold pushAt. apply list_eq. intros j.
  destruct (decide (k1 = j)) as [->|Hj1]; destruct (decide (k2 = j)) as [->|Hj2];
    repeat first [ rewrite list_lookup_alter_eq
                 | rewrite list_lookup_alter_ne by done ];
    rewrite ?Hm1, ?Hm2; done.
Qed.

Lemma addRelationPair_unknown a b t lst :
  indexOf a lst = None ∨ indexOf b lst = None → addRelationPair a b t lst = lst.
Proof.
  unfold addRelationPair.
  intros [Hk%findMember_None | Hk%findMember_None]; rewrite Hk; [done|].
  by destruct (findMember a lst) as [[]|].
Qed.

Lemma ids_addRelationPair a b t lst :
  id <$> addRelationPair a b t lst = id <$> lst.
Proof.
  destruct (indexOf a lst) as [k1|] eqn:Hk1;
    [destruct (indexOf b lst) as [k2|] eqn:Hk2|].
  - by rewrite (addRelationPair_found a b t lst k1 k2), !ids_pushAt.
  - rewrite addRelationPair_unknown; auto.
  - rewrite addRelationPair_unknown; auto.
Qed.

Lemma indexOf_addRelationPair x a b t lst :
  indexOf x (addRelationPair a b t lst) = indexOf x lst.
Proof. apply indexOf_same_ids, ids_addRelationPair. Qed.

Lemma length_addRelationPair a b t lst :
  length (addRelationPair a b t lst) = length lst.
Proof.
  rewrite <- (length_fmap id (addRelationPair a b t lst)), ids_addRelationPair.
  apply length_fmap.
Qed.

(** The object at a position after [addRelationPair] found both members. *)
Lemma addRelationPair_lookup a b t lst k1 k2 j m' :
  indexOf a lst = Some k1 → indexOf b lst = Some k2 →
  addRelationPair a b t lst !! j = Some m' →
  ∃ m, lst !! j = Some m ∧ id m' = id m
       ∧ rels m' = pushIf (bool_decide (j = k2)) (rel (reciprocal t) a)
                     (pushIf (bool_decide (j = k1)) (rel t b) (rels m)).
Proof.
  intros Hk1 Hk2. rewrite (addRelationPair_found a b t lst k1 k2) by done.
  rewrite !pushAt_lookup. destruct (lst !! j) as [m|]; [|done].
  cbn. intros [= <-]. exists m. split; [done|].
  unfold pushIf. repeat case_decide;
    rewrite ?bool_decide_eq_true_2, ?bool_decide_eq_false_2 by done; done.
Qed.

Lemma addRelationPair_lookup_inv a b t lst j m :
  lst !! j = Some m → ∃ m', addRelationPair a b t lst !! j = Some m'.
Proof.
  intros Hm. apply lookup_lt_is_Some. rewrite length_addRelationPair.
  by eapply lookup_lt_Some.
Qed.

Lemma same_position x a lst j k :
  indexOf x lst = Some j → indexOf a lst = Some k → j = k ↔ x = a.
Proof.
  intros Hj Hk. split.
  - intros ->. apply indexOf_Some in Hj as (m & Hm & <-).
    apply indexOf_Some in Hk as (m' & Hm' & <-). congruence.
  - intros ->. congruence.
Qed.

(** The relations of a member, looked up by id, after [addRelationPair]. *)
Lemma relationsOf_addRelationPair x a b t lst :
  is_Some (indexOf a lst) → is_Some (indexOf b lst) →
  relationsOf x (addRelationPair a b t lst) =
  pushIf (bool_decide (x = b)) (rel (reciprocal t) a)
    (pushIf (bool_decide (x = a)) (rel t b) (relationsOf x lst)).
Proof.
  intros [k1 Hk1] [k2 Hk2].
  destruct (indexOf x lst) as [j|] eqn:Hj.
  - destruct (indexOf_Some _ _ _ Hj) as (m & Hm & _).
    destruct (addRelationPair_lookup_inv a b t lst j m Hm) as [m' Hm'].
    rewrite (relationsOf_index x _ j m') by (by rewrite ?indexOf_addRelationPair).
    rewrite (relationsOf_index x lst j m) by done.
    destruct (addRelationPair_lookup a b t lst k1 k2 j m' Hk1 Hk2 Hm')
      as (m0 & ? & _ & ->). simplify_eq.
    by rewrite (bool_decide_ext _ _ (same_position x b lst j k2 Hj Hk2)),
               (bool_decide_ext _ _ (same_position x a lst j k1 Hj Hk1)).
  - rewrite !relationsOf_unknown by (by rewrite ?indexOf_addRelationPair).
    rewrite !bool_decide_eq_false_2; [done|congruence..].
Qed.

Lemma elem_of_pushIf c r r' rs : r' ∈ pushIf c r rs ↔ r' ∈ rs ∨ (c = true ∧ r' = r).
Proof.
  destruct c; cbn; [rewrite elem_of_pushUnlessFound|]; naive_solver.
Qed.

Lemma holds_addRelationPair x r a b t lst :
  holds (addRelationPair a b t lst) x r ↔
  holds lst x r
  ∨ (is_Some (indexOf a lst) ∧ is_Some (indexOf b lst)
     ∧ ((x = a ∧ r = rel t b) ∨ (x = b ∧ r = rel (reciprocal t) a))).
Proof.
  unfold holds.
  destruct (indexOf a lst) as [k1|] eqn:Hk1;
    [destruct (indexOf b lst) as [k2|] eqn:Hk2|].
  - rewrite relationsOf_addRelationPair by (by rewrite ?Hk1, ?Hk2).
    rewrite !elem_of_pushIf, !bool_decide_eq_true. naive_solver.
  - rewrite addRelationPair_unknown by auto.
    split; [auto|]. intros [?|(_ & [? [=]] & _)]. done.
  - rewrite addRelationPair_unknown by auto.
    split; [auto|]. intros [?|([? [=]] & _)]. done.
Qed.

Lemma holds_mono x r a b t lst :
  holds lst x r → holds (addRelationPair a b t lst) x r.
Proof. intros. apply holds_addRelationPair. auto. Qed.

Lemma filter_pushIf (P : Relation → Prop) `{!∀ r, Decision (P r)} c r rs :
  (c = true → ¬ P r) → filter P (pushIf c r rs) = filter P rs.
Proof. destruct c; cbn; [|done]. intros. by apply filter_pushUnlessFound; auto. Qed.

Lemma list_find_pushIf (P : Relation → Prop) `{!∀ r, Decision (P r)} c r rs :
  (c = true → ¬ P r) → list_find P (pushIf c r rs) = list_find P rs.
Proof. destruct c; cbn; [|done]. intros. by apply list_find_pushUnlessFound; auto. Qed.

(** What [addRelationPair] adds to a member does not show through a filter
    or a search that the added relations do not pass. *)
Lemma filter_relationsOf_addRelationPair
    (P : Relation → Prop) `{!∀ r, Decision (P r)} x a b t lst :
  (x = a → ¬ P (rel t b)) → (x = b → ¬ P (rel (reciprocal t) a)) →
  filter P (relationsOf x (addRelationPair a b t lst))
  = filter P (relationsOf x lst).
Proof.
  intros Ha Hb.
  destruct (indexOf a lst) as [k1|] eqn:Hk1;
    [destruct (indexOf b lst) as [k2|] eqn:Hk2|];
    [|rewrite addRelationPair_unknown; auto..].
  rewrite relationsOf_addRelationPair by (by rewrite ?Hk1, ?Hk2).
  rewrite !filter_pushIf; [done|by intros ?%bool_decide_eq_true; auto..].
Qed.

Lemma list_find_relationsOf_addRelationPair
    (P : Relation → Prop) `{!∀ r, Decision (P r)} x a b t lst :
  (x = a → ¬ P (rel t b)) → (x = b → ¬ P (rel (reciprocal t) a)) →
  list_find P (relationsOf x (addRelationPair a b t lst))
  = list_find P (relationsOf x lst).
Proof.
  intros Ha Hb.
  destruct (indexOf a lst) as [k1|] eqn:Hk1;
    [destruct (indexOf b lst) as [k2|] eqn:Hk2|];
    [|rewrite addRelationPair_unknown; auto..].
  rewrite relationsOf_addRelationPair by (by rewrite ?Hk1, ?Hk2).
  rewrite !list_find_pushIf; [done|by intros ?%bool_decide_eq_true; auto..].
Qed.

(** *** Pairs that are in place *)

Lemma holds_lookup lst x r :
  holds lst x r ↔ ∃ k m, indexOf x lst = Some k ∧ lst !! k = Some m ∧ r ∈ rels m.
Proof.
  unfold holds. split.
  - intros Hr. destruct (indexOf x lst) as [k|] eqn:Hk.
    + destruct (indexOf_Some _ _ _ Hk) as (m & Hm & _).
      rewrite (relationsOf_index x lst k m) in Hr by done. eauto.
    + rewrite relationsOf_unknown in Hr by done. by apply elem_of_nil in Hr.
  - intros (k & m & Hk & Hm & Hr). by rewrite (relationsOf_index x lst k m).
Qed.

Lemma holds_member lst x r : holds lst x r → is_Some (indexOf x lst).
Proof. intros (k & _ & Hk & _)%holds_lookup. by eexists. Qed.

Lemma linked_fixed a b t lst : linked a b t lst → addRelationPair a b t lst = lst.
Proof.
  intros Hl.
  destruct (indexOf a lst) as [k1|] eqn:Hk1;
    [destruct (indexOf b lst) as [k2|] eqn:Hk2|];
    [|rewrite addRelationPair_unknown; auto..].
  destruct Hl as [Ha Hb]; [by rewrite ?Hk1, ?Hk2..|].
  apply holds_lookup in Ha as (k1' & m1 & ? & Hm1 & Hr1).
  apply holds_lookup in Hb as (k2' & m2 & ? & Hm2 & Hr2). simplify_eq.
  rewrite (addRelationPair_found a b t lst k1 k2) by done.
  rewrite (pushAt_present k1 _ lst m1) by done.
  by rewrite (pushAt_present k2 _ lst m2).
Qed.

Lemma linked_addRelationPair a b t lst : linked a b t (addRelationPair a b t lst).
Proof.
  unfold linked. rewrite !indexOf_addRelationPair. intros Ha Hb.
  split; apply holds_addRelationPair; right; auto.
Qed.

Lemma linked_mono a b t a' b' t' lst :
  linked a b t lst → linked a b t (addRelationPair a' b' t' lst).
Proof.
  unfold linked. rewrite !indexOf_addRelationPair. intros Hl Ha Hb.
  destruct (Hl Ha Hb). split; by apply holds_mono.
Qed.

(** *** The propagation step *)

Lemma propagate_Child s tgt lst :
  propagate Child s tgt lst =
  match list_find (λ r, type r = "spouse" ∨ type r = "partner")
                  (relationsOf s lst) with
  | Some (_, spouseRel) => addRelationPair (targetId spouseRel) tgt "child" lst
  | None => lst
  end.
Proof. unfold propagate, relationsOf. by destruct (findMember s lst) as [[]|]. Qed.

Lemma propagate_Spouse s tgt lst :
  propagate Spouse s tgt lst =
  linkChildren tgt (filter (λ r, type r = "child") (relationsOf s lst)) lst.
Proof. unfold propagate, relationsOf. by destruct (findMember s lst) as [[]|]. Qed.

Lemma linkChildren_cons tgt c cs lst :
  linkChildren tgt (c :: cs) lst
  = linkChildren tgt cs (addRelationPair tgt (targetId c) "child" lst).
Proof. done. Qed.

Lemma indexOf_linkChildren x tgt cs lst :
  indexOf x (linkChildren tgt cs lst) = indexOf x lst.
Proof.
  revert lst. induction cs as [|c cs IH]; intros lst; [done|].
  rewrite linkChildren_cons.
  by rewrite IH, indexOf_addRelationPair.
Qed.

Lemma holds_linkChildren_mono x r tgt cs lst :
  holds lst x r → holds (linkChildren tgt cs lst) x r.
Proof.
  revert lst. induction cs as [|c cs IH]; intros lst Hr; [done|].
  rewrite linkChildren_cons. apply IH. by apply holds_mono.
Qed.

Lemma linked_linkChildren_mono a b t tgt cs lst :
  linked a b t lst → linked a b t (linkChildren tgt cs lst).
Proof.
  revert lst. induction cs as [|c cs IH]; intros lst Hl; [done|].
  rewrite linkChildren_cons. apply IH. by apply linked_mono.
Qed.

Lemma linked_linkChildren tgt cs lst c :
  c ∈ cs → linked tgt (targetId c) "child" (linkChildren tgt cs lst).
Proof.
  revert lst. induction cs as [|c' cs IH]; intros lst Hc.
  - by apply elem_of_nil in Hc.
  - rewrite linkChildren_cons. apply elem_of_cons in Hc as [->|Hc]; [|by apply IH].
    apply linked_linkChildren_mono, linked_addRelationPair.
Qed.

Lemma linkChildren_fixed tgt cs lst :
  (∀ c, c ∈ cs → linked tgt (targetId c) "child" lst) →
  linkChildren tgt cs lst = lst.
Proof.
  induction cs as [|c cs IH]; intros Hl; [done|].
  rewrite linkChildren_cons, linked_fixed by (apply Hl; left).
  apply IH. intros c' Hc'. apply Hl. by right.
Qed.

Lemma filter_relationsOf_linkChildren
    (P : Relation → Prop) `{!∀ r, Decision (P r)} x tgt cs lst :
  (x = tgt → ∀ c, ¬ P (rel "child" c)) → ¬ P (rel "parent" tgt) →
  filter P (relationsOf x (linkChildren tgt cs lst)) = filter P (relationsOf x lst).
Proof.
  intros Hx Hp. revert lst. induction cs as [|c cs IH]; intros lst; [done|].
  rewrite linkChildren_cons.
  rewrite IH. apply filter_relationsOf_addRelationPair; auto.
Qed.

(** *** The shape of a call *)

(** A call either saves nothing and leaves the members as they were, or
    commits one edit on the members, extended with the new member if one was
    asked for. *)
Lemma saveQuickRelation_cases env form ms :
  ((saveQuickRelation env form ms).2 = ms
   ∧ ∀ u l, (saveQuickRelation env form ms).1 ≠ Saved u l)
  ∨ ∃ s (e : EditType) tgt u lst,
      sourceId (relationModal form) = Some s
      ∧ modalType (relationModal form) = Some e
      ∧ tgt ≠ s ∧ tgt ≠ ""
      ∧ ((useNewTarget form = false ∧ selectedTargetId form = Some tgt ∧ lst = ms)
         ∨ (useNewTarget form = true ∧ blank (newTargetName form) = false
            ∧ tgt = generatedId env ∧ lst = ms ++ [newMember env form]))
      ∧ saveQuickRelation env form ms
        = (Saved u (commit e s tgt lst), commit e s tgt lst).
Proof.
  unfold saveQuickRelation, stateOf.
  destruct (open _); [|by left].
  destruct (sourceId _) as [s|]; [|by left].
  destruct (modalType _) as [e|]; [|by left].
  case_bool_decide; [by left|].
  destruct (currentUser env) as [u|]; [|by left].
  case_bool_decide; [by left|].
  destruct (useNewTarget form) eqn:Hnew.
  - destruct (blank _) eqn:Hblank; [left; by rewrite take_ge|].
    repeat case_bool_decide; try (left; by rewrite take_app_length).
    right. exists s, e, (generatedId env), u, (ms ++ [newMember env form]).
    split_and!; auto.
  - destruct (selectedTargetId form) as [tgt|] eqn:Htgt;
      [|left; by rewrite take_ge].
    repeat case_bool_decide; try (left; by rewrite take_ge).
    right. exists s, e, tgt, u, ms. split_and!; auto.
Qed.

(** An invariant of the working array is an invariant of the [members]
    state, as soon as a new member without relations and every
    [addRelationPair] of the three edit types keep it. *)
Lemma commit_preserves (I : list Member → Prop) e s tgt lst :
  (∀ a b e lst, I lst → I (addRelationPair a b (typeName e) lst)) →
  I lst → I (commit e s tgt lst).
Proof.
  intros Hadd Hlst. unfold commit, propagate.
  pose proof (Hadd s tgt e lst Hlst) as H1.
  destruct e; [|clear Hlst|done].
  - repeat case_match; try done. by apply (Hadd _ _ Child).
  - match goal with |- I (foldl _ _ ?cs) => generalize cs end. intros cs.
    revert H1. generalize (addRelationPair s tgt (typeName Spouse) lst).
    induction cs as [|c cs IH]; intros l Hl; [done|].
    cbn. apply IH. by apply (Hadd _ _ Child).
Qed.

Lemma edit_preserves (I : list Member → Prop) env form ms :
  (∀ lst m, I lst → rels m = [] → I (lst ++ [m])) →
  (∀ a b e lst, I lst → I (addRelationPair a b (typeName e) lst)) →
  I ms → I (edit env form ms).
Proof.
  intros Hnew Hadd Hms. unfold edit.
  destruct (saveQuickRelation_cases env form ms)
    as [[-> _] | (s & t & tgt & u & lst & _ & _ & _ & _ & Hlst & ->)]; [done|].
  cbn. apply commit_preserves; [done|].
  destruct Hlst as [(_ & _ & ->) | (_ & _ & _ & ->)]; [done|].
  by apply Hnew.
Qed.

Lemma saved_commit env form ms u lst' s e tgt :
  sourceId (relationModal form) = Some s →
  modalType (relationModal form) = Some e →
  finalTargetId env form = Some tgt →
  (saveQuickRelation env form ms).1 = Saved u lst' →
  tgt ≠ s
  ∧ lst' = commit e s tgt
             (if useNewTarget form then ms ++ [newMember env form] else ms)
  ∧ (saveQuickRelation env form ms).2 = lst'.
Proof.
  intros Hs He Htgt Hsaved.
  destruct (saveQuickRelation_cases env form ms)
    as [[_ Hno] | (s' & e' & tgt' & u' & lst & Hs' & He' & Hne & _ & Hlst & Heq)].
  - by destruct (Hno u lst').
  - rewrite Heq in Hsaved |- *. cbn in Hsaved. unfold finalTargetId in Htgt.
    destruct Hlst as [(Hnew & Hsel & ->) | (Hnew & _ & -> & ->)];
      rewrite Hnew in Htgt |- *; simplify_eq; done.
Qed.

Lemma relationsOf_app_l x lst m :
  is_Some (indexOf x lst) → relationsOf x (lst ++ [m]) = relationsOf x lst.
Proof.
  intros [k Hk]. destruct (indexOf_Some _ _ _ Hk) as (m' & Hm' & _).
  rewrite (relationsOf_index x lst k m') by done.
  apply (relationsOf_index x (lst ++ [m]) k m').
  - by apply indexOf_app_l.
  - by apply lookup_app_l_Some.
Qed.

Lemma indexOf_app_is_Some x lst m :
  is_Some (indexOf x lst) → is_Some (indexOf x (lst ++ [m])).
Proof. intros [k Hk]. exists k. by apply indexOf_app_l. Qed.

(** The relations the source has before a call are those it has in the
    working array the edit starts from. *)
Lemma relationsOf_start (new : bool) x ms m :
  is_Some (indexOf x ms) →
  relationsOf x (if new then ms ++ [m] else ms) = relationsOf x ms.
Proof. destruct new; [apply relationsOf_app_l|done]. Qed.

Lemma indexOf_start (new : bool) x ms m :
  is_Some (indexOf x ms) → is_Some (indexOf x (if new then ms ++ [m] else ms)).
Proof. destruct new; [apply indexOf_app_is_Some|done]. Qed.

Lemma list_find_is_Some_nonempty {A} (P : A → Prop) `{!∀ x, Decision (P x)} l k x :
  list_find P l = Some (k, x) → x ∈ l.
Proof. intros (? & _)%list_find_Some. by eapply list_elem_of_lookup_2. Qed.

Lemma holds_app_inv x r lst m :
  rels m = [] → holds (lst ++ [m]) x r → holds lst x r.
Proof.
  intros Hm. unfold holds, relationsOf.
  destruct (findMember x (lst ++ [m])) as [[k m']|] eqn:Hf;
    [|by intros ?%elem_of_nil].
  apply list_find_app_Some in Hf as [Hf | (_ & _ & Hf)].
  - unfold findMember. by rewrite Hf.
  - apply list_find_Some in Hf as (Hk & _).
    apply list_elem_of_lookup_2, list_elem_of_singleton in Hk as ->.
    rewrite Hm. by intros ?%elem_of_nil.
Qed.

Lemma linked_propagate_mono a b t e s tgt lst :
  linked a b t lst → linked a b t (propagate e s tgt lst).
Proof.
  intros Hl. destruct e; [| |done].
  - rewrite propagate_Child. destruct (list_find _ _) as [[]|]; [|done].
    by apply linked_mono.
  - rewrite propagate_Spouse. by apply linked_linkChildren_mono.
Qed.

(** A committed edit, committed again, changes nothing. *)
Lemma commit_idem e s tgt lst :
  tgt ≠ s → commit e s tgt (commit e s tgt lst) = commit e s tgt lst.
Proof.
  intros Hne. unfold commit at 1.
  rewrite linked_fixed
    by apply linked_propagate_mono, linked_addRelationPair.
  unfold commit.
  set (l1 := addRelationPair s tgt (typeName e) lst). destruct e; [| |done].
  - rewrite !propagate_Child.
    destruct (list_find _ (relationsOf s l1)) as [[k r]|] eqn:Hf.
    + rewrite list_find_relationsOf_addRelationPair, Hf
        by (intros _; cbn; intros [[=]|[=]]).
      apply linked_fixed, linked_addRelationPair.
    + by rewrite Hf.
  - rewrite !propagate_Spouse.
    rewrite filter_relationsOf_linkChildren; [| congruence | by cbn].
    apply linkChildren_fixed. intros c Hc. by apply linked_linkChildren.
Qed.

(** In existing-member mode the generated id is not used. *)
Lemma saveQuickRelation_existing env env' form ms :
  useNewTarget form = false → currentUser env' = currentUser env →
  saveQuickRelation env' form ms = saveQuickRelation env form ms.
Proof. intros Hnew Hu. unfold saveQuickRelation. by rewrite Hnew, Hu. Qed.

(** *** Invariants kept by [addRelationPair] *)

Lemma noDuplicateRelation_pushAt k r lst :
  noDuplicateRelation lst → noDuplicateRelation (pushAt k r lst).
Proof.
  intros Hnd. apply Forall_alter; [done|].
  intros m _ Hm. by apply pushUnlessFound_NoDup.
Qed.

Lemma noDuplicateRelation_addRelationPair a b t lst :
  noDuplicateRelation lst → noDuplicateRelation (addRelationPair a b t lst).
Proof.
  intros Hnd.
  destruct (indexOf a lst) as [k1|] eqn:Hk1;
    [destruct (indexOf b lst) as [k2|] eqn:Hk2|].
  - rewrite (addRelationPair_found a b t lst k1 k2) by done.
    by do 2 apply noDuplicateRelation_pushAt.
  - rewrite addRelationPair_unknown; auto.
  - rewrite addRelationPair_unknown; auto.
Qed.

Lemma holds_app x r lst m : holds lst x r → holds (lst ++ [m]) x r.
Proof.
  unfold holds. destruct (indexOf x lst) as [k|] eqn:Hk.
  - destruct (indexOf_Some _ _ _ Hk) as (m' & Hm' & _).
    rewrite (relationsOf_index x lst k m') by done.
    rewrite (relationsOf_index x (lst ++ [m]) k m'); [done| |].
    + by apply indexOf_app_l.
    + by apply lookup_app_l_Some.
  - rewrite relationsOf_unknown by done. by intros ?%elem_of_nil.
Qed.

Lemma reciprocalGraph_app lst m :
  reciprocalGraph lst → rels m = [] → reciprocalGraph (lst ++ [m]).
Proof.
  unfold reciprocalGraph. intros Hlst Hm. apply Forall_app. split.
  - eapply Forall_impl; [done|]. intros a Ha. cbn in Ha.
    eapply Forall_impl; [done|]. intros r Hr. by apply holds_app.
  - apply Forall_singleton. rewrite Hm. constructor.
Qed.

Lemma reciprocalGraph_addRelationPair a b t lst :
  reciprocal (reciprocal t) = t →
  reciprocalGraph lst → reciprocalGraph (addRelationPair a b t lst).
Proof.
  intros Hinv Hlst.
  destruct (indexOf a lst) as [k1|] eqn:Hk1;
    [destruct (indexOf b lst) as [k2|] eqn:Hk2|];
    [|rewrite addRelationPair_unknown; auto..].
  apply Forall_lookup. intros j m' Hm'. apply Forall_forall. intros r Hr.
  destruct (addRelationPair_lookup a b t lst k1 k2 j m' Hk1 Hk2 Hm')
    as (m & Hm & -> & Hrels).
  rewrite Hrels, !elem_of_pushIf, !bool_decide_eq_true in Hr.
  apply holds_addRelationPair. rewrite Hk1, Hk2.
  destruct Hr as [[Hr | [-> ->]] | [-> ->]].
  - left. unfold reciprocalGraph in Hlst.
    rewrite Forall_lookup in Hlst. specialize (Hlst j m Hm).
    rewrite Forall_forall in Hlst. by apply Hlst.
  - right. split_and!; [by eexists..|]. right. cbn.
    destruct (indexOf_Some _ _ _ Hk1) as (? & ? & <-). by simplify_eq.
  - right. split_and!; [by eexists..|]. left. cbn. rewrite Hinv.
    destruct (indexOf_Some _ _ _ Hk2) as (? & ? & <-). by simplify_eq.
Qed.

Lemma noSelfRelation_addRelationPair a b t lst :
  a ≠ b → noSelfRelation lst → noSelfRelation (addRelationPair a b t lst).
Proof.
  intros Hab Hlst.
  destruct (indexOf a lst) as [k1|] eqn:Hk1;
    [destruct (indexOf b lst) as [k2|] eqn:Hk2|];
    [|rewrite addRelationPair_unknown; auto..].
  apply Forall_lookup. intros j m' Hm'. apply Forall_forall. intros r Hr.
  destruct (addRelationPair_lookup a b t lst k1 k2 j m' Hk1 Hk2 Hm')
    as (m & Hm & -> & Hrels).
  rewrite Hrels, !elem_of_pushIf, !bool_decide_eq_true in Hr.
  destruct Hr as [[Hr | [-> ->]] | [-> ->]].
  - unfold noSelfRelation in Hlst.
    rewrite Forall_lookup in Hlst. specialize (Hlst j m Hm).
    rewrite Forall_forall in Hlst. by apply Hlst.
  - destruct (indexOf_Some _ _ _ Hk1) as (? & ? & <-). simplify_eq. cbn. congruence.
  - destruct (indexOf_Some _ _ _ Hk2) as (? & ? & <-). simplify_eq. by cbn.
Qed.

Lemma unreferenced_holds i lst x r :
  unreferenced i lst → holds lst x r → targetId r ≠ i.
Proof.
  intros Hun (k & m & _ & Hm & Hr)%holds_lookup.
  unfold unreferenced in Hun. rewrite Forall_lookup in Hun.
  specialize (Hun k m Hm). rewrite Forall_forall in Hun. by apply Hun.
Qed.

Lemma noSelfRelation_linkChildren tgt cs lst :
  Forall (λ c, targetId c ≠ tgt) cs →
  noSelfRelation lst → noSelfRelation (linkChildren tgt cs lst).
Proof.
  intros Hcs. revert lst. induction Hcs as [|c cs Hc _ IH]; intros lst Hlst;
    [done|].
  rewrite linkChildren_cons. apply IH.
  by apply noSelfRelation_addRelationPair.
Qed.

(** The self-relations an edit can create all come from a target that the
    source already names: an edit that creates its target under an id no
    relation refers to keeps the graph free of self-relations. *)
Lemma noSelfRelation_new_member env form ms :
  useNewTarget form = true → unreferenced (generatedId env) ms →
  noSelfRelation ms → noSelfRelation (edit env form ms).
Proof.
  intros Hnew Hun Hms. unfold edit.
  destruct (saveQuickRelation_cases env form ms)
    as [[-> _] | (s & e & tgt & u & lst & _ & _ & Hne & _ & Hlst & ->)]; [done|].
  destruct Hlst as [(? & _) | (_ & _ & -> & ->)]; [congruence|].
  cbn. unfold commit.
  set (lst0 := ms ++ [newMember env form]).
  set (l1 := addRelationPair s (generatedId env) (typeName e) lst0).
  assert (noSelfRelation l1) as Hl1.
  { apply noSelfRelation_addRelationPair; [done|].
    apply Forall_app. split; [done|]. apply Forall_singleton. constructor. }
  assert (∀ r, holds l1 s r → type r ≠ typeName e →
               targetId r ≠ generatedId env) as Hold.
  { intros r Hr Ht.
    apply holds_addRelationPair in Hr as [Hr|(_ & _ & [[_ ->]|[? _]])];
      [|done..].
    apply holds_app_inv in Hr; [|done]. by eapply unreferenced_holds. }
  destruct e; [| |done].
  - rewrite propagate_Child.
    destruct (list_find _ _) as [[k r]|] eqn:Hf; [|done].
    apply noSelfRelation_addRelationPair; [|done].
    apply list_find_Some in Hf as (Hk & HP & _).
    apply Hold; [by eapply list_elem_of_lookup_2|].
    cbn. destruct HP as [-> | ->]; done.
  - rewrite propagate_Spouse. apply noSelfRelation_linkChildren; [|done].
    apply Forall_forall. intros c [Hc Hin]%list_elem_of_filter.
    apply Hold; [done|]. rewrite Hc. done.
Qed.

End mutator.

(** The two mutator scenarios of the design document. *)
Example add_child_to_single :
  saveQuickRelation (session "2") (addNew "1" Child "Kid") single
  = (Saved "user" [person "1" "Me" [rel "child" "2"];
                   person "2" "Kid" [rel "parent" "1"]],
     [person "1" "Me" [rel "child" "2"]; person "2" "Kid" [rel "parent" "1"]]).
Proof. reflexivity. Qed.

Example add_child_to_couple :
  edit (session "3") (addNew "1" Child "Kid") couple
  = [person "1" "Me" [rel "spouse" "2"; rel "child" "3"];
     person "2" "Sam" [rel "spouse" "1"; rel "child" "3"];
     person "3" "Kid" [rel "parent" "1"; rel "parent" "2"]].
Proof. reflexivity. Qed.

Example self_relation_rejected :
  saveQuickRelation (session "3") (addExisting "1" Spouse "1") couple
  = (Alerted "Invalid" "Cannot relate to self.", couple).
Proof. reflexivity. Qed.

(** A call that does not save leaves the [members] state as it was. *)
Lemma unsaved_unchanged env form ms :
  (∀ u l, (saveQuickRelation env form ms).1 ≠ Saved u l) →
  (saveQuickRelation env form ms).2 = ms.
Proof.
  intros Hno.
  destruct (saveQuickRelation_cases env form ms)
    as [[Hsame _] | (s & e & tgt & u & lst & _ & _ & _ & _ & _ & Heq)]; [done|].
  rewrite Heq in Hno. by destruct (Hno u (commit e s tgt lst)).
Qed.

Lemma invalid_unsaved env form ms :
  invalid env form → ∀ u l, (saveQuickRelation env form ms).1 ≠ Saved u l.
Proof.
  intros Hinv.
  destruct (saveQuickRelation_cases env form ms)
    as [[_ Hno] | (s & e & tgt & u & lst & Hs & _ & Hself & Hne & Hlst & _)];
    [done|].
  exfalso. unfold invalid in Hinv.
  destruct Hlst as [(Hnew & Htgt & _) | (Hnew & Hblank & -> & _)];
    rewrite Hnew in Hinv.
  - rewrite Htgt, Hs in Hinv. destruct Hinv as [|[|]]; congruence.
  - rewrite Hblank, Hs in Hinv. destruct Hinv as [|[|]]; congruence.
Qed.

(** A request that reaches validation and fails it is answered by an alert. *)
Lemma invalid_alerted env form ms s e u :
  relationModal form = {| open := true; sourceId := Some s; modalType := Some e |} →
  s ≠ "" → currentUser env = Some u → u ≠ "" →
  invalid env form →
  ∃ title message, (saveQuickRelation env form ms).1 = Alerted title message.
Proof.
  intros Hmodal Hs Hu Hune Hinv. unfold saveQuickRelation, invalid in *.
  rewrite Hmodal in *. cbn in *. rewrite Hu.
  rewrite !bool_decide_eq_false_2 by done.
  destruct (useNewTarget form).
  - destruct (blank (newTargetName form)); [by eauto|].
    destruct Hinv as [?|[Hg|Hsrc]]; [done| |]; cbn.
    + rewrite Hg. eauto.
    + injection Hsrc as ->. rewrite bool_decide_eq_false_2 by done.
      rewrite bool_decide_eq_true_2 by done. eauto.
  - destruct Hinv as [-> | [-> | ->]]; cbn; [by eauto..|].
    rewrite bool_decide_eq_false_2, bool_decide_eq_true_2 by done. eauto.
Qed.

(** C4.  A relation-edit request that fails validation (blank name for a new
    member, no target resolved, or target equal to source) applies no
    mutation: the call does not save, and the members list and every
    member's relations are after the call what they were before it. *)
Theorem C4_failed_validation_mutates_nothing env form ms :
  invalid env form →
  (saveQuickRelation env form ms).2 = ms
  ∧ ∀ u l, (saveQuickRelation env form ms).1 ≠ Saved u l.
Proof.
  intros Hinv. split.
  - by apply unsaved_unchanged, invalid_unsaved.
  - by apply invalid_unsaved.
Qed.

Lemma C4_failed_validation_mutates_nothing_witness :
  invalid (session "2") (addNew "1" Child "  ")
  ∧ (saveQuickRelation (session "2") (addNew "1" Child "  ") single).2 = single.
Proof.
  assert (invalid (session "2") (addNew "1" Child "  ")) as Hinv
    by (left; reflexivity).
  split; [exact Hinv|].
  apply (C4_failed_validation_mutates_nothing _ _ single Hinv).
Defined.

(** C9.  If no member's relations hold the same (type, targetId) pair twice
    before a relation edit, none does after it. *)
Theorem C9_no_duplicate_relation env form ms :
  noDuplicateRelation ms → noDuplicateRelation (edit env form ms).
Proof.
  apply (edit_preserves noDuplicateRelation).
  - intros lst m Hlst Hm. apply Forall_app. split; [done|].
    apply Forall_singleton. rewrite Hm. constructor.
  - intros a b e lst. apply noDuplicateRelation_addRelationPair.
Qed.

Lemma C9_no_duplicate_relation_witness :
  noDuplicateRelation couple
  ∧ noDuplicateRelation (edit (session "3") (addNew "1" Child "Kid") couple).
Proof.
  assert (noDuplicateRelation couple) as Hcouple.
  { unfold noDuplicateRelation, couple.
    repeat constructor; by intros ?%elem_of_nil. }
  split; [exact Hcouple|].
  apply (C9_no_duplicate_relation _ _ couple Hcouple).
Defined.

(** C1.  If every relation of every member has its reciprocal on its target
    before a relation edit, the same holds after it: for every member A and
    relation (R, B) on A, member B holds (reciprocal(R), A). *)
Theorem C1_reciprocity env form ms :
  reciprocalGraph ms → reciprocalGraph (edit env form ms).
Proof.
  apply (edit_preserves reciprocalGraph).
  - apply reciprocalGraph_app.
  - intros a b e lst. apply reciprocalGraph_addRelationPair, reciprocal_typeName.
Qed.

Lemma C1_reciprocity_witness :
  reciprocalGraph couple
  ∧ reciprocalGraph (edit (session "3") (addNew "1" Child "Kid") couple).
Proof.
  assert (reciprocalGraph couple) as Hcouple
    by (unfold reciprocalGraph, couple; repeat constructor).
  split; [exact Hcouple|].
  apply (C1_reciprocity _ _ couple Hcouple).
Defined.

(** C2.  A relation edit can create a self-relation in a graph that has
    none: on a married couple, making the spouse the child of the source
    passes the self-relation guard, and the joint-parenting step then pairs
    the spouse with itself, so that member 2 ends with relations to its own
    id. *)
Theorem C2_spouse_as_child_relates_to_self :
  noSelfRelation couple
  ∧ (saveQuickRelation (session "3") (addExisting "1" Child "2") couple).2
    = [person "1" "Me" [rel "spouse" "2"; rel "child" "2"];
       person "2" "Sam" [rel "spouse" "1"; rel "parent" "1";
                         rel "child" "2"; rel "parent" "2"]]
  ∧ ¬ noSelfRelation (edit (session "3") (addExisting "1" Child "2") couple).
Proof.
  split_and!.
  - unfold noSelfRelation, couple. repeat constructor; by cbn.
  - reflexivity.
  - intros Hno. unfold noSelfRelation in Hno.
    apply Forall_cons in Hno as [_ Hno]. apply Forall_cons in Hno as [Hno _].
    vm_compute in Hno.
    do 2 apply Forall_cons in Hno as [_ Hno]. apply Forall_cons in Hno as [Hno _].
    by apply Hno.
Qed.

(** C5, as stated, fails: the source has a spouse and a partner, and after
    the child edit the partner, named second, does not hold the child. *)
Lemma C5_second_partner_not_linked :
  holds twoPartners "1" (rel "partner" "3")
  ∧ "3" ∈ (id <$> twoPartners)
  ∧ (saveQuickRelation (session "4") (addNew "1" Child "Kid") twoPartners).1
    = Saved "user" (edit (session "4") (addNew "1" Child "Kid") twoPartners)
  ∧ ¬ holds (edit (session "4") (addNew "1" Child "Kid") twoPartners)
            "3" (rel "child" "4").
Proof.
  split_and!.
  - unfold holds. compute_done.
  - compute_done.
  - reflexivity.
  - unfold holds. compute_done.
Qed.

(** C5 (amended).  After a saved child edit with source S and resolved
    target T, the member M that the first spouse-or-partner relation of S
    names holds (child, T) and T holds (parent, M); after a saved spouse
    edit, for every member C with (child, C) on S before the edit, T holds
    (child, C) and C holds (parent, T).  T, M and C are members: an id that
    no member bears holds nothing. *)
Theorem C5_joint_parenting env form ms s T u lst' :
  sourceId (relationModal form) = Some s →
  finalTargetId env form = Some T →
  saveQuickRelation env form ms = (Saved u lst', lst') →
  T ∈ (id <$> lst') →
  (modalType (relationModal form) = Some Child →
   ∀ k r,
     list_find (λ r, type r = "spouse" ∨ type r = "partner") (relationsOf s ms)
       = Some (k, r) →
     targetId r ∈ (id <$> ms) →
     holds lst' (targetId r) (rel "child" T)
     ∧ holds lst' T (rel "parent" (targetId r)))
  ∧ (modalType (relationModal form) = Some Spouse →
     ∀ C, holds ms s (rel "child" C) → C ∈ (id <$> ms) →
       holds lst' T (rel "child" C) ∧ holds lst' C (rel "parent" T)).
Proof.
  intros Hs Htgt Hcall HT.
  assert ((saveQuickRelation env form ms).1 = Saved u lst') as Hsaved
    by (by rewrite Hcall).
  apply indexOf_is_Some in HT. split.
  - intros He k r Hfind HM.
    destruct (saved_commit _ _ _ _ _ _ _ _ Hs He Htgt Hsaved) as (Hne & Hlst & _).
    assert (is_Some (indexOf s ms)) as Hsm.
    { apply list_find_is_Some_nonempty in Hfind.
      by apply (holds_member ms s r). }
    unfold commit in Hlst. rewrite propagate_Child in Hlst.
    rewrite list_find_relationsOf_addRelationPair in Hlst
      by (intros _; cbn; intros [[=]|[=]]).
    rewrite relationsOf_start, Hfind in Hlst by done.
    rewrite Hlst in HT |- *. rewrite indexOf_addRelationPair in HT.
    apply indexOf_is_Some in HM.
    split; apply holds_addRelationPair; right;
      (split_and!; [rewrite indexOf_addRelationPair; by apply indexOf_start
                   |done|auto]).
  - intros He C HC HCm.
    destruct (saved_commit _ _ _ _ _ _ _ _ Hs He Htgt Hsaved) as (Hne & Hlst & _).
    pose proof (holds_member _ _ _ HC) as Hsm.
    unfold commit in Hlst. rewrite propagate_Spouse in Hlst.
    rewrite Hlst in HT |- *. rewrite indexOf_linkChildren in HT.
    apply indexOf_is_Some in HCm.
    apply (linked_linkChildren T _ _ (rel "child" C)).
    + apply list_elem_of_filter. split; [done|].
      apply holds_mono. unfold holds. by rewrite relationsOf_start.
    + by rewrite indexOf_linkChildren.
    + rewrite indexOf_linkChildren, indexOf_addRelationPair.
      by apply indexOf_start.
Qed.

Lemma C5_joint_parenting_witness :
  (holds (edit (session "3") (addNew "1" Child "Kid") couple) "2" (rel "child" "3")
   ∧ holds (edit (session "3") (addNew "1" Child "Kid") couple) "3" (rel "parent" "2"))
  ∧ (holds (edit (session "4") (addNew "1" Spouse "Sam") parentOfTwo) "4" (rel "child" "3")
     ∧ holds (edit (session "4") (addNew "1" Spouse "Sam") parentOfTwo) "3" (rel "parent" "4")).
Proof.
  split.
  - apply (proj1 (C5_joint_parenting (session "3") (addNew "1" Child "Kid") couple
                    "1" "3" "user" _ eq_refl eq_refl eq_refl ltac:(compute_done))
                 eq_refl 0 (rel "spouse" "2")).
    + reflexivity.
    + compute_done.
  - apply (proj2 (C5_joint_parenting (session "4") (addNew "1" Spouse "Sam")
                    parentOfTwo "1" "4" "user" _ eq_refl eq_refl eq_refl
                    ltac:(compute_done))
                 eq_refl "3").
    + unfold holds. compute_done.
    + compute_done.
Defined.

(** C10, as stated, fails: the source names the same member as spouse and,
    later in its list, as partner; that member is the target of a later
    relation and gains the relation to the new child. *)
Lemma C10_later_relation_to_first_target :
  relationsOf "1" spouseAndPartner = [rel "spouse" "2"; rel "partner" "2"]
  ∧ ¬ holds spouseAndPartner "2" (rel "child" "3")
  ∧ holds (edit (session "3") (addNew "1" Child "Kid") spouseAndPartner)
          "2" (rel "child" "3").
Proof.
  split_and!; [reflexivity|unfold holds; compute_done..].
Qed.

(** C10 (amended).  In a child edit whose source S has a spouse-or-partner
    relation, the joint-parenting step is one [addRelationPair] between the
    target of the first such relation of S and the child; the target of a
    later spouse or partner relation of S, when it is not that first target,
    gains no relation to the child in this step, and none in the whole edit
    unless it is S itself. *)
Theorem C10_first_spouse_only env form ms s T u lst' k1 r1 :
  sourceId (relationModal form) = Some s →
  modalType (relationModal form) = Some Child →
  finalTargetId env form = Some T →
  saveQuickRelation env form ms = (Saved u lst', lst') →
  list_find (λ r, type r = "spouse" ∨ type r = "partner") (relationsOf s ms)
    = Some (k1, r1) →
  let lst := addRelationPair s T "child"
               (if useNewTarget form then ms ++ [newMember env form] else ms) in
  lst' = addRelationPair (targetId r1) T "child" lst
  ∧ ∀ k2 r2 r,
      relationsOf s ms !! k2 = Some r2 → k1 < k2 →
      type r2 = "spouse" ∨ type r2 = "partner" →
      targetId r2 ≠ targetId r1 →
      targetId r = T →
      holds lst' (targetId r2) r →
      holds lst (targetId r2) r ∧ (targetId r2 ≠ s → holds ms (targetId r2) r).
Proof.
  intros Hs He Htgt Hcall Hfind lst.
  assert ((saveQuickRelation env form ms).1 = Saved u lst') as Hsaved
    by (by rewrite Hcall).
  destruct (saved_commit _ _ _ _ _ _ _ _ Hs He Htgt Hsaved) as (Hne & Hlst & _).
  assert (is_Some (indexOf s ms)) as Hsm.
  { apply list_find_is_Some_nonempty in Hfind. by apply (holds_member ms s r1). }
  unfold commit in Hlst. rewrite propagate_Child in Hlst.
  rewrite list_find_relationsOf_addRelationPair in Hlst
    by (intros _; cbn; intros [[=]|[=]]).
  rewrite relationsOf_start, Hfind in Hlst by done.
  split; [done|].
  intros k2 r2 r _ _ _ Hother Hr Hholds.
  assert (holds lst (targetId r2) r) as Hlst1.
  { rewrite Hlst in Hholds.
    apply holds_addRelationPair in Hholds as [?|(_ & _ & [[? _]|[HT ->]])];
      [done..|]. cbn in Hr. congruence. }
  split; [done|]. intros Hnots.
  apply holds_addRelationPair in Hlst1 as [H0|(_ & _ & [[? _]|[HT ->]])];
    [|done|cbn in Hr; congruence].
  destruct (useNewTarget form); [|done].
  by apply holds_app_inv in H0.
Qed.

Lemma C10_first_spouse_only_witness :
  edit (session "9") (addExisting "1" Child "4") stepFamily
  = addRelationPair "2" "4" "child" (addRelationPair "1" "4" "child" stepFamily)
  ∧ holds (addRelationPair "1" "4" "child" stepFamily) "3" (rel "child" "4")
  ∧ holds stepFamily "3" (rel "child" "4").
Proof.
  destruct (C10_first_spouse_only (session "9") (addExisting "1" Child "4")
              stepFamily "1" "4" "user"
              (edit (session "9") (addExisting "1" Child "4") stepFamily)
              0 (rel "spouse" "2") eq_refl eq_refl eq_refl eq_refl eq_refl)
    as [Heq Hlater].
  split; [exact Heq|].
  destruct (Hlater 1 (rel "partner" "3") (rel "child" "4")) as [H1 H2].
  - reflexivity.
  - lia.
  - by right.
  - done.
  - reflexivity.
  - unfold holds. compute_done.
  - split; [exact H1|]. by apply H2.
Defined.

(** C6, as stated, fails: a request for a new member creates one member per
    application, each under its own generated id, so the source holds two
    child relations after the second application and one after the first. *)
Lemma C6_new_member_twice :
  relationsOf "1" (edit (session "2") (addNew "1" Child "Kid") single)
    = [rel "child" "2"]
  ∧ relationsOf "1" (edit (session "3") (addNew "1" Child "Kid")
                       (edit (session "2") (addNew "1" Child "Kid") single))
    = [rel "child" "2"; rel "child" "3"].
Proof. split; reflexivity. Qed.

(** C6 (amended).  A relation-edit request that names an existing member as
    its target, applied a second time, leaves the members list, and so the
    relations of every member, exactly as the first application left them;
    no (type, targetId) pair is inserted again. *)
Theorem C6_idempotent_on_existing_target env env' form ms :
  useNewTarget form = false → currentUser env' = currentUser env →
  edit env' form (edit env form ms) = edit env form ms.
Proof.
  intros Hnew Hu. unfold edit.
  rewrite (saveQuickRelation_existing env env') by done.
  destruct (saveQuickRelation_cases env form ms)
    as [[Hsame _] | (s & e & tgt & u & lst & Hs & He & Hne & _ & Hlst & Heq)].
  - by rewrite !Hsame.
  - destruct Hlst as [(_ & Hsel & ->) | (Hnew' & _)]; [|congruence].
    rewrite Heq. cbn.
    destruct (saveQuickRelation_cases env form (commit e s tgt ms))
      as [[Hsame _] | (s' & e' & tgt' & u' & lst' & Hs' & He' & _ & _ & Hlst' & ->)];
      [done|].
    cbn. destruct Hlst' as [(_ & Hsel' & ->) | (Hnew' & _)]; [|congruence].
    simplify_eq. by apply commit_idem.
Qed.

Lemma C6_idempotent_on_existing_target_witness :
  edit (session "8") (addExisting "1" Child "2")
    (edit (session "7") (addExisting "1" Child "2") couple)
  = edit (session "7") (addExisting "1" Child "2") couple.
Proof.
  apply (C6_idempotent_on_existing_target (session "7") (session "8")
           (addExisting "1" Child "2") couple); reflexivity.
Defined.

(** * The rest of the screen *)

Example colour_examples :
  codeUnits (bytes "a-1") = [97; 45; 49]%N
  ∧ codeUnits [226; 130; 172]%N = [8364]%N
  ∧ codeUnits [240; 159; 152; 128]%N = [55357; 56832]%N
  ∧ nodeColor "12" = Some "#34C759".
Proof. by vm_compute. Qed.

Example export_example :
  normalizeImportedFamily (exportValue trio) = Some trio
  ∧ importFromJsonText (session "9") (Some ann) (Some (JNumber 42)) trio
    = (Imported "user" [person "9" "Ann" []], [person "9" "Ann" []]).
Proof. by vm_compute. Qed.

(** ** More on the import sanitizer *)

Section sanitizer_output.

Implicit Types (items : list JSON) (item : JSON) (st : Loop) (m : Member).

(** An iteration leaves the state as it is or appends one sound member
    whose id was not seen. *)
Lemma visit_cases st item :
  visit st item = st
  ∨ ∃ m, sanitized (visit st item) = sanitized st ++ [m]
         ∧ (id m ∉ seen st) ∧ sound m ∧ ∃ n, name m = trim n.
Proof.
  destruct (negb (truthy item) || negb (bool_decide (typeof item = TObject)))
    eqn:Hobj; [left; unfold visit; by rewrite Hobj|].
  destruct (prop item "id") as [[| | |i| |]|] eqn:Hi;
    try (left; unfold visit; by rewrite Hobj, Hi).
  destruct (prop item "name") as [[| | |n| |]|] eqn:Hn;
    try (left; unfold visit; by rewrite Hobj, Hi, Hn).
  destruct (blank i) eqn:Hbi; [left; unfold visit; by rewrite Hobj, Hi, Hn, Hbi|].
  destruct (blank n) eqn:Hbn;
    [left; unfold visit; by rewrite Hobj, Hi, Hn, Hbi, Hbn|].
  destruct (decide (i ∈ seen st)) as [Hseen|Hseen].
  { left. unfold visit. rewrite Hobj, Hi, Hn, Hbi, Hbn.
    by rewrite bool_decide_eq_true_2. }
  right. eexists. split; [|split; [|split]].
  - apply (visit_keep st item i n); [|done].
    unfold blank in Hbi, Hbn.
    apply String.eqb_neq in Hbi, Hbn. split_and!; try done.
    destruct item; try discriminate; eauto.
  - done.
  - unfold sound. cbn. split_and!; [done| |by eexists|].
    + unfold blank in Hbn. by apply String.eqb_neq in Hbn.
    + apply Forall_forall. intros r (e & _ & _ & _ & ? & ? & _)%elem_of_relationsOfRaw.
      done.
  - by exists n.
Qed.

Lemma loop_sound items : Forall sound (sanitized (loop items)).
Proof.
  induction items as [|item items IH] using rev_ind; [by constructor|].
  rewrite loop_snoc.
  destruct (visit_cases (loop items) item) as [-> | (m & -> & _ & Hm & _)];
    [done|].
  apply Forall_app. split; [done|]. by apply Forall_singleton.
Qed.

Lemma loop_names_trimmed items :
  Forall (λ m, ∃ n, name m = trim n) (sanitized (loop items)).
Proof.
  induction items as [|item items IH] using rev_ind; [by constructor|].
  rewrite loop_snoc.
  destruct (visit_cases (loop items) item) as [-> | (m & -> & _ & _ & Hm)];
    [done|].
  apply Forall_app. split; [done|]. by apply Forall_singleton.
Qed.

Lemma loop_ids_distinct items : NoDup (id <$> sanitized (loop items)).
Proof.
  induction items as [|item items IH] using rev_ind; [by constructor|].
  rewrite loop_snoc.
  destruct (visit_cases (loop items) item) as [-> | (m & -> & Hnew & _)];
    [done|].
  rewrite fmap_app. apply NoDup_app. split_and!; [done| |by apply NoDup_singleton].
  intros i Hi ->%list_elem_of_singleton. by apply Hnew, seen_loop.
Qed.

Lemma ids_pruneDangling ms : id <$> pruneDangling ms = id <$> ms.
Proof. unfold pruneDangling. rewrite <- list_fmap_compose. by apply list_fmap_ext. Qed.

Lemma pruneDangling_sound ms : Forall sound ms → Forall sound (pruneDangling ms).
Proof.
  intros Hms. unfold pruneDangling. apply Forall_fmap.
  eapply Forall_impl; [done|]. intros m (Hi & Hn & _ & Hrs). cbn.
  unfold sound. cbn. split_and!; [done..|by eexists|].
  rewrite Forall_forall in Hrs. apply Forall_forall.
  intros r [_ Hr]%list_elem_of_filter. by apply Hrs.
Qed.

(** What the sanitizer returns is the pruned result of the loop over some
    array. *)
Lemma normalizeImportedFamily_shape data ms :
  normalizeImportedFamily data = Some ms →
  ∃ items, ms = pruneDangling (sanitizeItems items).
Proof.
  unfold normalizeImportedFamily.
  set (rawList := if isArray (Some data) then _ else _).
  destruct rawList as [[| | | |items|]|]; try done.
  case_bool_decide as Hlen; intros [= <-]; exists items; [|done].
  by rewrite (nil_length_inv _ Hlen).
Qed.

Lemma normalizeImportedFamily_sound data ms :
  normalizeImportedFamily data = Some ms →
  NoDup (id <$> ms) ∧ Forall sound ms ∧ noDangling ms.
Proof.
  intros (items & ->)%normalizeImportedFamily_shape. split_and!.
  - rewrite ids_pruneDangling. apply loop_ids_distinct.
  - apply pruneDangling_sound, loop_sound.
  - apply pruneDangling_noDangling.
Qed.

Lemma sound_noSelfRelation ms : Forall sound ms → noSelfRelation ms.
Proof.
  intros Hms. unfold noSelfRelation. eapply Forall_impl; [done|].
  intros m (_ & _ & _ & Hrs). eapply Forall_impl; [done|]. by intros r [_ ?].
Qed.

End sanitizer_output.

(** X1.  The members the sanitizer returns have pairwise distinct ids. *)
Theorem sanitized_ids_distinct data ms :
  normalizeImportedFamily data = Some ms → NoDup (id <$> ms).
Proof. by intros (? & _)%normalizeImportedFamily_sound. Qed.

Lemma sanitized_ids_distinct_witness :
  normalizeImportedFamily (JArray [itemA; itemB; itemA])
  = Some [person "a" "Ann" [rel "other" "b"]; person "b" "Bob" []]
  ∧ NoDup (id <$> [person "a" "Ann" [rel "other" "b"]; person "b" "Bob" []]).
Proof.
  split; [by vm_compute|].
  apply (sanitized_ids_distinct (JArray [itemA; itemB; itemA])). by vm_compute.
Defined.

(** X2.  No member the sanitizer returns holds a relation to its own id, and
    no relation it returns has an empty target. *)
Theorem sanitized_no_self_relation data ms :
  normalizeImportedFamily data = Some ms →
  noSelfRelation ms
  ∧ Forall (λ m, Forall (λ r, targetId r ≠ "") (rels m)) ms.
Proof.
  intros (_ & Hs & _)%normalizeImportedFamily_sound. split.
  - by apply sound_noSelfRelation.
  - eapply Forall_impl; [done|]. intros m (_ & _ & _ & Hrs).
    eapply Forall_impl; [done|]. by intros r [? _].
Qed.

(** X3.  Every member the sanitizer returns has an id that is not blank, a
    name that is not empty and a relations list that is defined. *)
Theorem sanitized_identity_fields data ms :
  normalizeImportedFamily data = Some ms →
  Forall (λ m, blank (id m) = false ∧ name m ≠ "" ∧ is_Some (relations m)) ms.
Proof.
  intros (_ & Hs & _)%normalizeImportedFamily_sound.
  eapply Forall_impl; [done|]. by intros m (? & ? & ? & _).
Qed.

Lemma sanitized_no_self_relation_witness :
  normalizeImportedFamily (JArray [itemA; itemB])
  = Some [person "a" "Ann" [rel "other" "b"]; person "b" "Bob" []]
  ∧ noSelfRelation [person "a" "Ann" [rel "other" "b"]; person "b" "Bob" []].
Proof.
  split; [by vm_compute|].
  apply (sanitized_no_self_relation (JArray [itemA; itemB])). by vm_compute.
Defined.

Lemma sanitized_identity_fields_witness :
  normalizeImportedFamily (JArray [itemA; itemB])
  = Some [person "a" "Ann" [rel "other" "b"]; person "b" "Bob" []]
  ∧ Forall (λ m, blank (id m) = false ∧ name m ≠ "" ∧ is_Some (relations m))
           [person "a" "Ann" [rel "other" "b"]; person "b" "Bob" []].
Proof.
  split; [by vm_compute|].
  apply (sanitized_identity_fields (JArray [itemA; itemB])). by vm_compute.
Defined.

(** ** Export and import *)

Section round_trip.

Implicit Types (ms : list Member) (m : Member) (rs : list Relation).

Lemma relationOfRaw_relationToJSON r : relationOfRaw (relationToJSON r) = Some r.
Proof. by destruct r. Qed.

Lemma omap_relationOfRaw rs : omap relationOfRaw (relationToJSON <$> rs) = rs.
Proof.
  induction rs as [|r rs IH]; [done|].
  cbn [fmap list_fmap omap list_omap].
  rewrite relationOfRaw_relationToJSON. cbn. by f_equal.
Qed.

Lemma filter_all {A} (P : A → Prop) `{!∀ x, Decision (P x)} (l : list A) :
  Forall P l → filter P l = l.
Proof.
  induction 1 as [|x l Hx _ IH]; [done|].
  rewrite filter_cons_True by done. by f_equal.
Qed.

(** What the sanitizer reads from an exported member. *)
Lemma memberToJSON_props m :
  prop (memberToJSON m) "id" = Some (JString (id m))
  ∧ prop (memberToJSON m) "name" = Some (JString (name m))
  ∧ asString (prop (memberToJSON m) "dob") = dob m
  ∧ asString (prop (memberToJSON m) "email") = email m
  ∧ asString (prop (memberToJSON m) "photo") = photo m
  ∧ prop (memberToJSON m) "relations"
    = (λ rs, JArray (relationToJSON <$> rs)) <$> relations m.
Proof.
  destruct m as [i n [d|] [e|] [p|] [rs|]]; by split_and!.
Qed.

Lemma relationsOfRaw_memberToJSON m :
  Forall (λ r, targetId r ≠ "" ∧ targetId r ≠ id m) (rels m) →
  relationsOfRaw (id m) (prop (memberToJSON m) "relations") = rels m.
Proof.
  intros Hrs. destruct (memberToJSON_props m) as (_ & _ & _ & _ & _ & ->).
  unfold rels in *. destruct (relations m) as [rs|]; [|done]. cbn.
  rewrite omap_relationOfRaw. by apply filter_all.
Qed.

Lemma ids_withRelations ms : id <$> (withRelations <$> ms) = id <$> ms.
Proof. induction ms as [|m ms IH]; [done|]. cbn. by f_equal. Qed.

Lemma sanitizeItems_export ms :
  NoDup (id <$> ms) →
  Forall (λ m, blank (id m) = false ∧ blank (name m) = false
               ∧ trim (name m) = name m
               ∧ Forall (λ r, targetId r ≠ "" ∧ targetId r ≠ id m) (rels m)) ms →
  sanitizeItems (memberToJSON <$> ms) = withRelations <$> ms.
Proof.
  induction ms as [|m ms IH] using rev_ind; [done|].
  rewrite !fmap_app. cbn [fmap list_fmap].
  intros (Hnd & Hnew & _)%NoDup_app [Hms Hm]%Forall_app.
  specialize (IH Hnd Hms). unfold sanitizeItems in *. rewrite loop_snoc.
  apply Forall_inv in Hm as (Hbi & Hbn & Htrim & Hrs).
  destruct (memberToJSON_props m) as (Hi & Hn & Hd & He & Hp & _).
  rewrite (visit_keep _ _ (id m) (name m)).
  - rewrite IH, Hd, He, Hp, Htrim, relationsOfRaw_memberToJSON by done.
    by destruct m.
  - unfold blank in Hbi, Hbn. apply String.eqb_neq in Hbi, Hbn.
    split_and!; try done. unfold memberToJSON. eauto.
  - rewrite seen_loop, IH, ids_withRelations.
    intros Hin. apply (Hnew (id m)); [done|]. by apply list_elem_of_singleton.
Qed.

Lemma pruneDangling_export ms :
  Forall (λ m, Forall (λ r, targetId r ∈ id <$> ms) (rels m)) ms →
  pruneDangling (withRelations <$> ms) = withRelations <$> ms.
Proof.
  intros Hms. unfold pruneDangling.
  rewrite ids_withRelations, <- list_fmap_compose.
  apply Forall_fmap_ext_1. eapply Forall_impl; [done|].
  intros m Hrs. cbn in *. rewrite filter_all; [done|].
  eapply Forall_impl; [exact Hrs|]. intros r Hr. by apply elem_of_list_to_set.
Qed.

End round_trip.

Lemma round_trip_of_exportable ms :
  exportable ms →
  normalizeImportedFamily (exportValue ms) = Some (withRelations <$> ms).
Proof.
  intros [Hnd Hms]. unfold normalizeImportedFamily, exportValue. cbn.
  rewrite sanitizeItems_export; [|done|].
  - case_bool_decide as Hlen.
    + by rewrite (nil_length_inv _ Hlen).
    + rewrite pruneDangling_export; [done|].
      eapply Forall_impl; [done|]. intros m (_ & _ & _ & Hrs).
      eapply Forall_impl; [done|]. by intros r (_ & _ & ?).
  - eapply Forall_impl; [done|]. intros m (? & ? & ? & Hrs).
    split_and!; [done..|].
    eapply Forall_impl; [done|]. by intros r (? & ? & _).
Qed.

(** X4.  Exporting a graph and importing the export gives the graph back:
    for members with distinct, non-blank ids, trimmed non-blank names and
    relations to other members, the sanitizer returns every member of the
    export with its id, name, dob, email, photo and relations, in order. *)
Theorem export_import_round_trip ms :
  exportable ms →
  normalizeImportedFamily (exportValue ms) = Some (withRelations <$> ms).
Proof. apply round_trip_of_exportable. Qed.

Lemma export_import_round_trip_witness :
  exportable trio ∧ normalizeImportedFamily (exportValue trio) = Some trio.
Proof.
  assert (exportable trio) as Htrio.
  { unfold exportable. split; compute_done. }
  split; [exact Htrio|].
  apply (export_import_round_trip trio Htrio).
Defined.

(** ** Importing a text *)

Lemma ensureDefaultMember_nonempty env user lst :
  ensureDefaultMember env user lst ≠ [].
Proof.
  unfold ensureDefaultMember. case_bool_decide as Hlen; [|done].
  intros ->. cbn in Hlen. lia.
Qed.

Lemma ensureDefaultMember_cases env user lst :
  (lst ≠ [] ∧ ensureDefaultMember env user lst = lst)
  ∨ (lst = [] ∧ ∃ me, ensureDefaultMember env user lst = [me]
                      ∧ id me = generatedId env ∧ relations me = Some []).
Proof.
  unfold ensureDefaultMember. destruct lst as [|m lst].
  - right. split; [done|]. rewrite bool_decide_eq_false_2 by (cbn; lia).
    by eexists.
  - left. split; [done|]. by rewrite bool_decide_eq_true_2 by (cbn; lia).
Qed.

(** X5.  Whatever text is imported, the answer is never "Invalid format":
    the sanitizer hands a list back for every decoded value, so the branch
    of [importFromJsonText] that reports a wrong format cannot be taken. *)
Theorem import_never_reports_invalid_format env user parsed ms :
  (importFromJsonText env user parsed ms).1 ≠ InvalidFormat.
Proof.
  unfold importFromJsonText.
  destruct (currentUser env) as [u|]; [|done].
  case_bool_decide; [done|]. destruct parsed as [data|]; [|done].
  by destruct (normalizeImportedFamily_accepts data) as [next ->].
Qed.

(** X6.  After an import that went through, the family is never empty, its
    ids are pairwise distinct, every relation targets a member and no member
    is related to itself. *)
Theorem imported_family_is_valid env user parsed old u ms :
  (importFromJsonText env user parsed old).1 = Imported u ms →
  (importFromJsonText env user parsed old).2 = ms
  ∧ ms ≠ [] ∧ NoDup (id <$> ms) ∧ noDangling ms ∧ noSelfRelation ms.
Proof.
  unfold importFromJsonText.
  destruct (currentUser env) as [u'|]; [|done].
  case_bool_decide; [done|]. destruct parsed as [data|]; [|done].
  destruct (normalizeImportedFamily data) as [next|] eqn:Hnext; [|done].
  cbn. intros [= <- <-]. split; [done|].
  split; [apply ensureDefaultMember_nonempty|].
  destruct (ensureDefaultMember_cases env user next)
    as [[_ ->] | (-> & me & -> & _ & Hrels)].
  - destruct (normalizeImportedFamily_sound _ _ Hnext) as (? & ? & ?).
    split_and!; [done..|]. by apply sound_noSelfRelation.
  - split_and!; [apply NoDup_singleton|..];
      apply Forall_singleton; unfold rels; rewrite Hrels; constructor.
Qed.

Lemma imported_family_is_valid_witness :
  (importFromJsonText (session "9") (Some ann) (Some (exportValue trio)) single).1
  = Imported "user" trio
  ∧ (importFromJsonText (session "9") (Some ann) (Some (exportValue trio)) single).2
    = trio
  ∧ trio ≠ [] ∧ NoDup (id <$> trio) ∧ noDangling trio ∧ noSelfRelation trio.
Proof.
  assert ((importFromJsonText (session "9") (Some ann)
             (Some (exportValue trio)) single).1 = Imported "user" trio) as Himp
    by (by vm_compute).
  split; [exact Himp|].
  apply (imported_family_is_valid _ _ _ _ _ _ Himp).
Defined.

(** X7.  Importing a decoded value that is neither an array nor an object
    with a [members] array goes through all the same, and replaces the
    family, whatever it was, by one new default member without relations. *)
Theorem import_of_other_shape_resets_family env user data old u :
  currentUser env = Some u → u ≠ "" →
  isArray (Some data) = false → isArray (prop data "members") = false →
  ∃ me, importFromJsonText env user (Some data) old = (Imported u [me], [me])
        ∧ id me = generatedId env ∧ relations me = Some [].
Proof.
  intros Hu Hne Hd Hm. unfold importFromJsonText.
  rewrite Hu, bool_decide_eq_false_2 by done.
  rewrite (normalizeImportedFamily_other_shape data Hd Hm).
  eexists. by split_and!.
Qed.

Lemma import_of_other_shape_resets_family_witness :
  ∃ me, importFromJsonText (session "9") (Some ann) (Some (JNumber 42)) trio
        = (Imported "user" [me], [me])
        ∧ id me = "9" ∧ relations me = Some [].
Proof.
  apply (import_of_other_shape_resets_family (session "9") (Some ann)
           (JNumber 42) trio "user"); done.
Defined.

(** ** More on the relation mutator *)

Section mutator_frame.

Implicit Types (ms lst : list Member) (m : Member).
Implicit Types (r : Relation) (rs : list Relation) (a b x : string).

Lemma ids_commit e s tgt lst : id <$> commit e s tgt lst = id <$> lst.
Proof.
  apply (commit_preserves (λ l, id <$> l = id <$> lst)); [|done].
  intros a b e' l Hl. by rewrite ids_addRelationPair.
Qed.

(** The ids after a saved edit: those before it, then the generated one if
    a member was created. *)
Lemma ids_saved env form ms u lst' :
  (saveQuickRelation env form ms).1 = Saved u lst' →
  id <$> lst' = (id <$> ms) ++ (if useNewTarget form then [generatedId env] else []).
Proof.
  intros Hsaved.
  destruct (saveQuickRelation_cases env form ms)
    as [[_ Hno] | (s & e & tgt & u' & lst & _ & _ & _ & _ & Hlst & Heq)].
  - by destruct (Hno u lst').
  - rewrite Heq in Hsaved. cbn in Hsaved. simplify_eq. rewrite ids_commit.
    destruct Hlst as [(-> & _ & ->) | (-> & _ & _ & ->)].
    + by rewrite app_nil_r.
    + by rewrite fmap_app.
Qed.

Lemma grown_refl m : grown m m.
Proof. by unfold grown. Qed.

Lemma grown_trans m1 m2 m3 : grown m1 m2 → grown m2 m3 → grown m1 m3.
Proof.
  unfold grown. intros (? & ? & ? & ? & ? & ?) (? & ? & ? & ? & ? & ?).
  split_and!; try congruence. by etrans.
Qed.

Lemma grown_push r m : grown m (setRelations (pushUnlessFound r (rels m)) m).
Proof.
  unfold grown. cbn. split_and!; try done.
  rewrite pushUnlessFound_decide. case_decide; [done|]. by apply prefix_app_r.
Qed.

Lemma Forall2_grown_refl lst : Forall2 grown lst lst.
Proof. apply Forall2_same_length_lookup_2; [done|]. intros. simplify_eq. apply grown_refl. Qed.

Lemma Forall2_grown_pushAt k r lst lst0 :
  Forall2 grown lst0 lst → Forall2 grown lst0 (pushAt k r lst).
Proof.
  intros H0. apply Forall2_same_length_lookup_2.
  - unfold pushAt. rewrite length_alter. by eapply Forall2_length.
  - intros j m0 m' Hm0 Hm'. rewrite pushAt_lookup in Hm'.
    destruct (lst !! j) as [m|] eqn:Hm; [|done]. cbn in Hm'. simplify_eq.
    pose proof (Forall2_lookup_lr _ _ _ _ _ _ H0 Hm0 Hm) as Hg.
    case_decide; [|done]. eapply grown_trans; [done|]. apply grown_push.
Qed.

Lemma Forall2_grown_addRelationPair a b t lst lst0 :
  Forall2 grown lst0 lst → Forall2 grown lst0 (addRelationPair a b t lst).
Proof.
  intros H0.
  destruct (indexOf a lst) as [k1|] eqn:Hk1;
    [destruct (indexOf b lst) as [k2|] eqn:Hk2|];
    [|rewrite addRelationPair_unknown; auto..].
  rewrite (addRelationPair_found a b t lst k1 k2) by done.
  by do 2 apply Forall2_grown_pushAt.
Qed.

Lemma Forall2_grown_commit e s tgt lst : Forall2 grown lst (commit e s tgt lst).
Proof.
  apply (commit_preserves (λ l, Forall2 grown lst l)).
  - intros a b e' l. apply Forall2_grown_addRelationPair.
  - apply Forall2_grown_refl.
Qed.

Lemma noDangling_app lst m :
  noDangling lst → rels m = [] → noDangling (lst ++ [m]).
Proof.
  unfold noDangling. intros Hlst Hm. apply Forall_app. split.
  - eapply Forall_impl; [done|]. intros m' Hrs. cbn in Hrs.
    eapply Forall_impl; [exact Hrs|]. intros r Hr. cbn.
    rewrite fmap_app. apply elem_of_app. by left.
  - apply Forall_singleton. rewrite Hm. constructor.
Qed.

Lemma noDangling_addRelationPair a b t lst :
  noDangling lst → noDangling (addRelationPair a b t lst).
Proof.
  intros Hlst.
  destruct (indexOf a lst) as [k1|] eqn:Hk1;
    [destruct (indexOf b lst) as [k2|] eqn:Hk2|];
    [|rewrite addRelationPair_unknown; auto..].
  unfold noDangling. rewrite ids_addRelationPair.
  apply Forall_lookup. intros j m' Hm'. apply Forall_forall. intros r Hr.
  destruct (addRelationPair_lookup a b t lst k1 k2 j m' Hk1 Hk2 Hm')
    as (m & Hm & _ & Hrels).
  rewrite Hrels, !elem_of_pushIf, !bool_decide_eq_true in Hr.
  destruct Hr as [[Hr | [_ ->]] | [_ ->]].
  - unfold noDangling in Hlst.
    rewrite Forall_lookup in Hlst. specialize (Hlst j m Hm).
    rewrite Forall_forall in Hlst. by apply Hlst.
  - cbn. apply (proj1 (indexOf_is_Some b lst)). by rewrite Hk2.
  - cbn. apply (proj1 (indexOf_is_Some a lst)). by rewrite Hk1.
Qed.

Lemma relationsOf_other x a b t lst :
  x ≠ a → x ≠ b →
  relationsOf x (addRelationPair a b t lst) = relationsOf x lst.
Proof.
  intros Ha Hb.
  destruct (indexOf a lst) as [k1|] eqn:Hk1;
    [destruct (indexOf b lst) as [k2|] eqn:Hk2|];
    [|rewrite addRelationPair_unknown; auto..].
  rewrite relationsOf_addRelationPair by (by rewrite ?Hk1, ?Hk2).
  by rewrite !bool_decide_eq_false_2.
Qed.

Lemma relationsOf_linkChildren_other x tgt cs lst :
  x ≠ tgt → Forall (λ c, targetId c ≠ x) cs →
  relationsOf x (linkChildren tgt cs lst) = relationsOf x lst.
Proof.
  intros Hx Hcs. revert lst. induction Hcs as [|c cs Hc _ IH]; intros lst;
    [done|].
  rewrite linkChildren_cons, IH. apply relationsOf_other; congruence.
Qed.

Lemma relationsOf_app_other x lst m :
  id m ≠ x → relationsOf x (lst ++ [m]) = relationsOf x lst.
Proof.
  intros Hm. unfold relationsOf, findMember.
  destruct (list_find _ lst) as [[k m']|] eqn:Hf.
  - by rewrite (list_find_app_l _ _ _ _ _ Hf).
  - rewrite list_find_app_r by done. cbn. by rewrite decide_False.
Qed.

Lemma indexOf_app_None x lst m :
  indexOf x lst = None → id m ≠ x → indexOf x (lst ++ [m]) = None.
Proof.
  intros Hx%findMember_None Hm. apply findMember_None. unfold findMember in *.
  rewrite list_find_app_r by done. cbn. by rewrite decide_False.
Qed.

End mutator_frame.

(** X8.  A saved edit puts the requested pair in place: the source S holds
    (type, T) and the target T holds (reciprocal type, S), whenever both are
    members. *)
Theorem saved_edit_links_source_and_target env form ms s e T u lst' :
  sourceId (relationModal form) = Some s →
  modalType (relationModal form) = Some e →
  finalTargetId env form = Some T →
  saveQuickRelation env form ms = (Saved u lst', lst') →
  s ∈ (id <$> ms) → T ∈ (id <$> lst') →
  holds lst' s (rel (typeName e) T)
  ∧ holds lst' T (rel (reciprocal (typeName e)) s).
Proof.
  intros Hs He Htgt Hcall Hsm HT.
  assert ((saveQuickRelation env form ms).1 = Saved u lst') as Hsaved
    by (by rewrite Hcall).
  destruct (saved_commit _ _ _ _ _ _ _ _ Hs He Htgt Hsaved) as (_ & Hlst & _).
  assert (s ∈ id <$> lst') as Hs'.
  { rewrite (ids_saved _ _ _ _ _ Hsaved). apply elem_of_app. by left. }
  apply indexOf_is_Some in Hs', HT. rewrite Hlst in Hs', HT |- *.
  unfold commit in *.
  by apply (linked_propagate_mono s T (typeName e) e s T _
              (linked_addRelationPair s T (typeName e) _)).
Qed.

Lemma saved_edit_links_source_and_target_witness :
  holds (edit (session "4") (addExisting "3" Sibling "1") trio)
        "3" (rel "sibling" "1")
  ∧ holds (edit (session "4") (addExisting "3" Sibling "1") trio)
          "1" (rel "sibling" "3").
Proof.
  apply (saved_edit_links_source_and_target (session "4")
           (addExisting "3" Sibling "1") trio "3" Sibling "1" "user" _
           eq_refl eq_refl eq_refl eq_refl); compute_done.
Defined.

(** X9.  An edit never removes or rewrites anything: the members present
    before it are all there after it, in the same order, each with the same
    id, name, dob, email and photo and with its former relations as a prefix
    of its relations; at most one member is added, at the end. *)
Theorem edit_keeps_members_and_relations env form ms :
  ∃ kept added,
    edit env form ms = kept ++ added
    ∧ Forall2 grown ms kept
    ∧ (added = []
       ∨ useNewTarget form = true
         ∧ ∃ m', added = [m'] ∧ grown (newMember env form) m').
Proof.
  unfold edit.
  destruct (saveQuickRelation_cases env form ms)
    as [[-> _] | (s & e & tgt & u & lst & _ & _ & _ & _ & Hlst & ->)].
  - exists ms, []. rewrite app_nil_r. split_and!; [done| |by left].
    apply Forall2_grown_refl.
  - cbn. pose proof (Forall2_grown_commit e s tgt lst) as Hg.
    destruct Hlst as [(_ & _ & ->) | (Hnew & _ & _ & ->)].
    + exists (commit e s tgt ms), []. rewrite app_nil_r. by split_and!; [..|left].
    + apply Forall2_app_inv_l in Hg as (kept & added & Hkept & Hadded & ->).
      exists kept, added. split_and!; [done..|]. right. split; [done|].
      apply Forall2_cons_inv_l in Hadded as (m' & rest & Hm' & Hrest & ->).
      apply Forall2_nil_inv_l in Hrest as ->. eauto.
Qed.

(** X10.  If every relation targets a member before an edit, every relation
    targets a member after it: the mutator creates no dangling reference. *)
Theorem edit_creates_no_dangling_reference env form ms :
  noDangling ms → noDangling (edit env form ms).
Proof.
  apply (edit_preserves noDangling).
  - apply noDangling_app.
  - intros a b e lst. apply noDangling_addRelationPair.
Qed.

Lemma edit_creates_no_dangling_reference_witness :
  noDangling couple
  ∧ noDangling (edit (session "3") (addNew "1" Child "Kid") couple).
Proof.
  assert (noDangling couple) as Hcouple by (unfold noDangling; compute_done).
  split; [exact Hcouple|].
  apply (edit_creates_no_dangling_reference _ _ couple Hcouple).
Defined.

(** X11.  Ids stay pairwise distinct through an edit, provided the id
    generated for a new member is not already the id of a member. *)
Theorem edit_keeps_ids_distinct env form ms :
  NoDup (id <$> ms) →
  (useNewTarget form = true → generatedId env ∉ (id <$> ms)) →
  NoDup (id <$> edit env form ms).
Proof.
  intros Hnd Hfresh. unfold edit.
  destruct (saveQuickRelation env form ms) as [o ms'] eqn:Hcall.
  destruct (saveQuickRelation_cases env form ms)
    as [[Hsame _] | (s & e & tgt & u & lst & _ & _ & _ & _ & _ & Heq)].
  - rewrite Hcall in Hsame. cbn in *. by subst.
  - rewrite Heq in Hcall. simplify_eq. cbn.
    assert ((saveQuickRelation env form ms).1 = Saved u (commit e s tgt lst))
      as Hsaved by (by rewrite Heq).
    rewrite (ids_saved _ _ _ _ _ Hsaved).
    destruct (useNewTarget form); [|by rewrite app_nil_r].
    apply NoDup_app. split_and!; [done| |apply NoDup_singleton].
    intros i Hi ->%list_elem_of_singleton. by apply Hfresh.
Qed.

Lemma edit_keeps_ids_distinct_witness :
  NoDup (id <$> couple)
  ∧ NoDup (id <$> edit (session "3") (addNew "1" Child "Kid") couple).
Proof.
  assert (NoDup (id <$> couple)) as Hcouple by compute_done.
  split; [exact Hcouple|].
  apply (edit_keeps_ids_distinct _ _ couple Hcouple). intros _. compute_done.
Defined.

(** X12.  [addRelationPair] is idempotent for every pair of ids and every
    type, and changes nothing at all when one of the ids is not a member. *)
Theorem addRelationPair_idempotent a b t lst :
  addRelationPair a b t (addRelationPair a b t lst) = addRelationPair a b t lst
  ∧ (a ∉ (id <$> lst) ∨ b ∉ (id <$> lst) → addRelationPair a b t lst = lst).
Proof.
  split.
  - apply linked_fixed, linked_addRelationPair.
  - intros Hunknown. apply addRelationPair_unknown.
    destruct Hunknown as [Hx|Hx]; [left|right];
      apply eq_None_not_Some; by rewrite indexOf_is_Some.
Qed.

Lemma addRelationPair_idempotent_witness :
  addRelationPair "1" "7" "child" couple = couple.
Proof.
  apply (proj2 (addRelationPair_idempotent "1" "7" "child" couple)).
  right. compute_done.
Defined.

(** X13.  A saved edit touches only the source, the target and members the
    source already names: the relations of any other member are after the
    edit what they were before it. *)
Theorem saved_edit_leaves_others_alone env form ms s e T u lst' x :
  sourceId (relationModal form) = Some s →
  modalType (relationModal form) = Some e →
  finalTargetId env form = Some T →
  saveQuickRelation env form ms = (Saved u lst', lst') →
  x ≠ s → x ≠ T → (∀ r, holds ms s r → targetId r ≠ x) →
  relationsOf x lst' = relationsOf x ms.
Proof.
  intros Hs He Htgt Hcall Hxs HxT Hnamed.
  assert ((saveQuickRelation env form ms).1 = Saved u lst') as Hsaved
    by (by rewrite Hcall).
  destruct (saved_commit _ _ _ _ _ _ _ _ Hs He Htgt Hsaved) as (Hne & -> & _).
  set (lst0 := if useNewTarget form then ms ++ [newMember env form] else ms).
  assert (relationsOf x lst0 = relationsOf x ms) as H0.
  { subst lst0. unfold finalTargetId in Htgt.
    destruct (useNewTarget form); [|done]. simplify_eq.
    by apply relationsOf_app_other. }
  assert (∀ r, holds lst0 s r → targetId r ≠ x) as Hnamed0.
  { intros r Hr. apply Hnamed. subst lst0.
    destruct (useNewTarget form); [|done]. by apply holds_app_inv in Hr. }
  unfold commit. set (l1 := addRelationPair s T (typeName e) lst0).
  assert (relationsOf x l1 = relationsOf x ms) as H1
    by (subst l1; by rewrite relationsOf_other).
  assert (∀ r, holds l1 s r → type r ≠ typeName e → targetId r ≠ x) as Hnamed1.
  { intros r Hr Ht.
    apply holds_addRelationPair in Hr as [Hr|(_ & _ & [[_ ->]|[? _]])];
      [by apply Hnamed0|done..]. }
  destruct e; [| |done].
  - rewrite propagate_Child.
    destruct (list_find _ _) as [[k r]|] eqn:Hf; [|done].
    apply list_find_Some in Hf as (Hk & HP & _).
    rewrite relationsOf_other; [done| |done].
    intros ->. eapply (Hnamed1 r); [by eapply list_elem_of_lookup_2| |done].
    cbn. destruct HP as [-> | ->]; done.
  - rewrite propagate_Spouse, relationsOf_linkChildren_other; [done..|].
    apply Forall_forall. intros c [Hc Hin]%list_elem_of_filter.
    apply Hnamed1; [done|]. by rewrite Hc.
Qed.

Lemma saved_edit_leaves_others_alone_witness :
  relationsOf "4" (edit (session "5") (addNew "1" Child "Kid") stepFamily)
  = relationsOf "4" stepFamily.
Proof.
  apply (saved_edit_leaves_others_alone (session "5") (addNew "1" Child "Kid")
           stepFamily "1" Child "5" "user" _ "4" eq_refl eq_refl eq_refl eq_refl);
    [done..|].
  intros r Hr. unfold holds in Hr.
  change (relationsOf "1" stepFamily)
    with [rel "spouse" "2"; rel "partner" "3"] in Hr.
  repeat (apply elem_of_cons in Hr as [->|Hr]; [done|]).
  by apply elem_of_nil in Hr.
Defined.

(** X14.  An edit whose source is not a member relates nobody: it is saved
    all the same, and the members are as before, but for the new member,
    added without relations, when one was asked for. *)
Theorem saved_edit_with_unknown_source env form ms s u lst' :
  sourceId (relationModal form) = Some s →
  saveQuickRelation env form ms = (Saved u lst', lst') →
  s ∉ (id <$> ms) →
  lst' = if useNewTarget form then ms ++ [newMember env form] else ms.
Proof.
  intros Hs Hcall Hunknown.
  destruct (saveQuickRelation_cases env form ms)
    as [[_ Hno] | (s' & e & tgt & u' & lst & Hs' & _ & Hne & _ & Hlst & Heq)].
  { destruct (Hno u lst'). by rewrite Hcall. }
  rewrite Heq in Hcall. simplify_eq.
  assert (indexOf s lst = None) as Hnone.
  { rewrite <- indexOf_is_Some in Hunknown. apply eq_None_not_Some in Hunknown.
    destruct Hlst as [(_ & _ & ->) | (_ & _ & -> & ->)]; [done|].
    apply indexOf_app_None; [done|]. cbn. congruence. }
  assert (commit e s tgt lst = lst) as ->.
  { unfold commit. rewrite addRelationPair_unknown by auto.
    destruct e; [| |done].
    - rewrite propagate_Child, relationsOf_unknown by done. done.
    - rewrite propagate_Spouse, relationsOf_unknown by done. done. }
  by destruct Hlst as [(-> & _ & ->) | (-> & _ & _ & ->)].
Qed.

Lemma saved_edit_with_unknown_source_witness :
  ("7" ∉ id <$> single)
  ∧ edit (session "2") (addNew "7" Child "Kid") single
    = single ++ [newMember (session "2") (addNew "7" Child "Kid")].
Proof.
  assert ("7" ∉ id <$> single) as Hunknown by compute_done.
  split; [exact Hunknown|].
  apply (saved_edit_with_unknown_source (session "2") (addNew "7" Child "Kid")
           single "7" "user" _ eq_refl eq_refl Hunknown).
Defined.

(** X15.  [reciprocal] is its own inverse exactly on the six types parent,
    child, spouse, partner, sibling and other; every other type is sent to
    other and does not come back. *)
Theorem reciprocal_involutive_iff t :
  reciprocal (reciprocal t) = t
  ↔ t ∈ ["parent"; "child"; "spouse"; "partner"; "sibling"; "other"].
Proof.
  split.
  - intros Hinv.
    destruct (decide (t ∈ ["parent"; "child"; "spouse"; "partner"; "sibling"]))
      as [Hin|Hout].
    + set_solver.
    + destruct reciprocal_table as (_ & _ & _ & _ & _ & Hother).
      rewrite (Hother t Hout) in Hinv. vm_compute in Hinv. set_solver.
  - intros Hin. repeat (apply elem_of_cons in Hin as [->|Hin]; [by vm_compute|]).
    by apply elem_of_nil in Hin.
Qed.

(** ** The relation modal *)

(** X16.  Every row of the member list is accepted as a target: with the
    modal open on a source, a user logged in and "Existing" chosen, picking
    a listed member with a non-empty id and pressing Save raises no alert
    and commits the edit between the source and that member. *)
Theorem listed_member_is_accepted env form ms s e u m :
  relationModal form = {| open := true; sourceId := Some s; modalType := Some e |} →
  s ≠ "" → currentUser env = Some u → u ≠ "" →
  m ∈ selectable form ms → id m ≠ "" →
  saveQuickRelation env (setTargetId (id m) (chooseExisting form)) ms
  = (Saved u (commit e s (id m) ms), commit e s (id m) ms).
Proof.
  intros Hmodal Hs Hu Hune [Hsel _]%list_elem_of_filter Hid.
  rewrite Hmodal in Hsel. cbn in Hsel.
  unfold saveQuickRelation, setTargetId, chooseExisting. cbn.
  rewrite Hmodal. cbn. rewrite Hu.
  rewrite !bool_decide_eq_false_2; [done|congruence..].
Qed.

Lemma listed_member_is_accepted_witness :
  person "2" "Sam" [rel "spouse" "1"]
    ∈ selectable (openRelationModal "1" Sibling) couple
  ∧ saveQuickRelation (session "3")
      (setTargetId "2" (chooseExisting (openRelationModal "1" Sibling))) couple
    = (Saved "user" (commit Sibling "1" "2" couple), commit Sibling "1" "2" couple).
Proof.
  assert (person "2" "Sam" [rel "spouse" "1"]
            ∈ selectable (openRelationModal "1" Sibling) couple) as Hin
    by compute_done.
  split; [exact Hin|].
  apply (listed_member_is_accepted (session "3") (openRelationModal "1" Sibling)
           couple "1" Sibling "user" _ eq_refl ltac:(done) eq_refl ltac:(done)
           Hin ltac:(done)).
Defined.

(** X17.  Once a press on Save has saved, the modal is closed: a further
    press is ignored and leaves members and modal as they are, whatever id
    would be generated for it. *)
Theorem press_after_save_is_ignored env env' scr u l :
  (pressSave env scr).1 = Saved u l →
  pressSave env' (pressSave env scr).2 = (Ignored, (pressSave env scr).2)
  ∧ members (pressSave env scr).2 = l.
Proof.
  unfold pressSave.
  destruct (saveQuickRelation_cases env (modalForm scr) (members scr))
    as [[_ Hno] | (s & e & tgt & u' & lst & _ & _ & _ & _ & _ & ->)].
  - destruct (saveQuickRelation env (modalForm scr) (members scr)) as [[] ?];
      cbn; try done. intros _. by destruct (Hno userKey lst).
  - cbn. by intros [= <- <-].
Qed.

Lemma press_after_save_is_ignored_witness :
  (pressSave (session "2") (mkScreen single (addNew "1" Child "Kid"))).1
  = Saved "user" [person "1" "Me" [rel "child" "2"];
                  person "2" "Kid" [rel "parent" "1"]]
  ∧ pressSave (session "3")
      (pressSave (session "2") (mkScreen single (addNew "1" Child "Kid"))).2
    = (Ignored,
       (pressSave (session "2") (mkScreen single (addNew "1" Child "Kid"))).2).
Proof.
  assert ((pressSave (session "2") (mkScreen single (addNew "1" Child "Kid"))).1
          = Saved "user" [person "1" "Me" [rel "child" "2"];
                          person "2" "Kid" [rel "parent" "1"]]) as Hsaved
    by reflexivity.
  split; [exact Hsaved|].
  apply (press_after_save_is_ignored (session "2") (session "3") _ _ _ Hsaved).
Defined.

(** X18.  A modal that was just opened cannot be saved as it is: it asks
    for a new member and its name is empty, so Save changes nothing and
    saves nothing, for every source, type and family. *)
Theorem fresh_modal_is_not_saved env s e ms :
  (saveQuickRelation env (openRelationModal s e) ms).2 = ms
  ∧ ∀ u l, (saveQuickRelation env (openRelationModal s e) ms).1 ≠ Saved u l.
Proof.
  assert (invalid env (openRelationModal s e)) as Hinv by (by left).
  split.
  - by apply unsaved_unchanged, invalid_unsaved.
  - by apply invalid_unsaved.
Qed.

(** ** The colour of a node *)

Lemma foldl_sum_permutation (l k : list N) (z : N) :
  l ≡ₚ k → foldl (λ s c, (s + c)%N) z l = foldl (λ s c, (s + c)%N) z k.
Proof.
  intros Hp. revert z.
  induction Hp as [|c l k _ IH|c d l|l k j _ IH1 _ IH2]; intros z; cbn.
  - done.
  - apply IH.
  - f_equal. lia.
  - by rewrite IH1.
Qed.

(** X19.  Every id gets one of the eight colours of the palette (the index
    computed from the hash is always in range), and two ids with the same
    code units in any order get the same colour. *)
Theorem nodeColor_in_palette i :
  (∃ c, nodeColor i = Some c ∧ c ∈ colors)
  ∧ ∀ j, codeUnits (bytes i) ≡ₚ codeUnits (bytes j) → nodeColor i = nodeColor j.
Proof.
  split.
  - unfold nodeColor.
    destruct (lookup_lt_is_Some_2 colors
                (N.to_nat (hash i mod N.of_nat (length colors)))) as [c Hc].
    { pose proof (N.mod_upper_bound (hash i) (N.of_nat (length colors))) as Hb.
      cbn in *. lia. }
    exists c. split; [done|]. by eapply list_elem_of_lookup_2.
  - intros j Hp. unfold nodeColor, hash.
    by rewrite (foldl_sum_permutation _ _ 0%N Hp).
Qed.

Lemma nodeColor_in_palette_witness : nodeColor "12" = nodeColor "21".
Proof.
  apply (proj2 (nodeColor_in_palette "12") "21").
  change (codeUnits (bytes "12")) with [49; 50]%N.
  change (codeUnits (bytes "21")) with [50; 49]%N.
  apply perm_swap.
Defined.

(** ** Trimming twice *)

Section trimming.

Implicit Types (l bs : list N) (width : list N → nat).

Lemma bytes_bound s : Forall (λ x, (x < 256)%N) (bytes s).
Proof.
  unfold bytes. apply Forall_fmap, Forall_forall. intros a _.
  apply N_ascii_bounded.
Qed.

Lemma bytes_unbytes l : Forall (λ x, (x < 256)%N) l → bytes (unbytes l) = l.
Proof.
  intros Hl. unfold bytes, unbytes.
  rewrite list_ascii_of_string_of_list_ascii, <- list_fmap_compose.
  induction Hl as [|x l Hx _ IH]; [done|].
  cbn. by rewrite N_ascii_embedding, IH.
Qed.

Lemma wsPrefix_le l : (wsPrefix l ≤ length l)%nat.
Proof.
  unfold wsPrefix. repeat case_match; cbn; lia.
Qed.

Lemma wsSuffix_le l : (wsSuffix l ≤ length l)%nat.
Proof.
  unfold wsSuffix. repeat case_match; cbn; lia.
Qed.

Lemma strip_fixed width fuel l : width l = 0 → strip width fuel l = l.
Proof. intros Hw. destruct fuel; cbn; [done|]. by rewrite Hw. Qed.

(** With fuel for every element, stripping ends on a sequence that starts
    with no white space. *)
Lemma strip_done width fuel l :
  (∀ l', (width l' ≤ length l')%nat) → (length l ≤ fuel)%nat →
  width (strip width fuel l) = 0.
Proof.
  intros Hw. revert l. induction fuel as [|fuel IH]; intros l Hlen; cbn.
  - pose proof (Hw l). lia.
  - destruct (width l) as [|k] eqn:Hk; [done|].
    apply IH. rewrite length_drop. lia.
Qed.

Lemma strip_suffix width fuel l : strip width fuel l `suffix_of` l.
Proof.
  revert l. induction fuel as [|fuel IH]; intros l; cbn; [done|].
  destruct (width l) as [|k]; [done|].
  etrans; [apply IH|]. apply suffix_drop.
Qed.

Lemma wsPrefix_prefix l1 l2 :
  wsPrefix l2 = 0 → l1 `prefix_of` l2 → wsPrefix l1 = 0.
Proof.
  intros H2 [k ->]. unfold wsPrefix in *.
  destruct l1 as [|a [|b [|c l1]]]; cbn in *; [done|..];
    repeat case_match; simplify_eq; done.
Qed.

Lemma trim_bytes s :
  wsPrefix (bytes (trim s)) = 0 ∧ wsSuffix (reverse (bytes (trim s))) = 0.
Proof.
  unfold trim.
  set (front := strip wsPrefix (length (bytes s)) (bytes s)).
  set (back := strip wsSuffix (length front) (reverse front)).
  assert (Forall (λ x, (x < 256)%N) front) as Hfront.
  { destruct (strip_suffix wsPrefix (length (bytes s)) (bytes s)) as [k Hk].
    pose proof (bytes_bound s) as Hb. fold front in Hk. rewrite Hk in Hb.
    by apply Forall_app in Hb as [_ ?]. }
  assert (Forall (λ x, (x < 256)%N) back) as Hback.
  { destruct (strip_suffix wsSuffix (length front) (reverse front)) as [k Hk].
    fold back in Hk. apply Forall_reverse in Hfront. rewrite Hk in Hfront.
    by apply Forall_app in Hfront as [_ ?]. }
  rewrite bytes_unbytes by (by apply Forall_reverse). split.
  - apply (wsPrefix_prefix _ front).
    + apply strip_done; [apply wsPrefix_le|done].
    + apply prefix_suffix_reverse. rewrite reverse_involutive.
      apply strip_suffix.
  - rewrite reverse_involutive.
    apply strip_done; [apply wsSuffix_le|]. by rewrite length_reverse.
Qed.

Lemma trim_idempotent s : trim (trim s) = trim s.
Proof.
  destruct (trim_bytes s) as [Hp Hs]. unfold trim at 1.
  rewrite (strip_fixed wsPrefix _ _ Hp), (strip_fixed wsSuffix _ _ Hs).
  rewrite reverse_involutive. unfold trim.
  set (front := strip wsPrefix (length (bytes s)) (bytes s)).
  set (back := strip wsSuffix (length front) (reverse front)).
  unfold unbytes, bytes at 1.
  rewrite list_ascii_of_string_of_list_ascii, <- list_fmap_compose.
  f_equal. rewrite <- list_fmap_compose. apply list_fmap_ext.
  intros i x _. cbn. apply ascii_N_embedding.
Qed.

End trimming.

(** X20.  The sanitizer is idempotent through an export: whatever it
    returns, exported and imported again, comes back unchanged. *)
Theorem sanitized_family_round_trips data ms :
  normalizeImportedFamily data = Some ms →
  normalizeImportedFamily (exportValue ms) = Some ms.
Proof.
  intros Hms.
  destruct (normalizeImportedFamily_sound _ _ Hms) as (Hnd & Hsound & Hdang).
  assert (Forall (λ m, ∃ n, name m = trim n) ms) as Hnames.
  { destruct (normalizeImportedFamily_shape _ _ Hms) as (items & ->).
    unfold pruneDangling. apply Forall_fmap.
    eapply Forall_impl; [apply loop_names_trimmed|].
    intros m [n Hn]. by exists n. }
  assert (withRelations <$> ms = ms) as Hsame.
  { rewrite <- (list_fmap_id ms) at 2. apply Forall_fmap_ext_1.
    eapply Forall_impl; [exact Hsound|]. intros m (_ & _ & [rs Hrs] & _).
    unfold withRelations, rels. rewrite Hrs. by apply setRelations_rels. }
  rewrite <- Hsame at 2. apply round_trip_of_exportable. split; [done|].
  apply Forall_forall. intros m Hm. unfold noDangling in Hdang.
  rewrite Forall_forall in Hsound, Hnames, Hdang.
  destruct (Hsound m Hm) as (Hi & Hn & _ & Hrs).
  destruct (Hnames m Hm) as [n Hname].
  assert (trim (name m) = name m) as Htrim
    by (rewrite Hname; apply trim_idempotent).
  split_and!; [done| |done|].
  - unfold blank. rewrite Htrim. by apply String.eqb_neq.
  - specialize (Hdang m Hm). rewrite Forall_forall in Hrs, Hdang.
    apply Forall_forall. intros r Hr. destruct (Hrs r Hr).
    split_and!; [done..|]. by apply Hdang.
Qed.

Lemma sanitized_family_round_trips_witness :
  normalizeImportedFamily (JArray [itemA; itemB; blankIdItem])
  = Some [person "a" "Ann" [rel "other" "b"]; person "b" "Bob" []]
  ∧ normalizeImportedFamily
      (exportValue [person "a" "Ann" [rel "other" "b"]; person "b" "Bob" []])
    = Some [person "a" "Ann" [rel "other" "b"]; person "b" "Bob" []].
Proof.
  assert (normalizeImportedFamily (JArray [itemA; itemB; blankIdItem])
          = Some [person "a" "Ann" [rel "other" "b"]; person "b" "Bob" []])
    as Hfirst by (by vm_compute).
  split; [exact Hfirst|].
  apply (sanitized_family_round_trips _ _ Hfirst).
Defined.
